(** * StackAPI: the stack store of [main.py]

    A shallow embedding of the Flask application of [main.py]: the
    process-wide dictionary [app.stacks], the [array.array("q")] held by
    each entry, the expiry sweep run by [before_request], the
    [require_valid_stack_id] decorator and the view functions.

    Conventions of the embedding.
    - A Python [int] is a [Z]; a Python [str] is a [string].
    - A [dict] is the list of its items in insertion order, with
      distinct keys; the sweep and [list_stacks] iterate in that order.
    - The seconds [time.time()] returns are taken as integers: the code
      only adds an hour to them and compares them. Every call reads the
      clock anew, so the clock is an oracle [clock : nat -> Z] and the
      world counts the readings made so far.
    - [secrets.token_hex(8)] read as a base-16 number is the oracle
      [token : nat -> Z].
    - [int(...)] applied to a query argument is the oracle
      [int_of_str : string -> option Z] ([None] when Python raises
      [ValueError]); a missing argument ([None]) raises [TypeError].
      Every call site catches both exceptions together.
    - The percentage [list_stacks] prints is computed in floating point
      and left to the oracle [percent].
    - Views run in a state monad over the world that can also raise a
      Python exception; an exception no view catches reaches Flask.
    - Requests are handled one at a time. *)

From Stdlib Require Import ZArith List String Ascii Bool Lia.
From Stdlib Require Import DecimalString DecimalZ DecimalPos.
Import ListNotations.

Local Open Scope string_scope.
Local Open Scope list_scope.
Local Open Scope Z_scope.

(** ** Constants *)

Definition HOST : string := "0.0.0.0".
Definition PORT : Z := 2000.

Definition MAX_STACK_SIZE : Z := 1024 * 100.
Definition MAX_STACKS : Z := 1000.

(** [60 * 60], the literal added to [time.time()] at both places that
    set an expiry. *)
Definition ONE_HOUR : Z := 60 * 60.

(** ** Python strings *)

(** [str(n)] for an [int]: decimal digits, with a leading minus sign for
    a negative number. *)
Definition str (n : Z) : string := NilZero.string_of_int (Z.to_int n).

Definition newline : string := String (ascii_of_nat 10) EmptyString.

(** [s.split(",")]: the pieces of [s] between commas; never empty. *)
Fixpoint split_comma (s : string) : list string :=
  match s with
  | EmptyString => [EmptyString]
  | String c s' =>
      if Ascii.eqb c ","%char then EmptyString :: split_comma s'
      else match split_comma s' with
           | piece :: pieces => String c piece :: pieces
           | [] => [String c EmptyString]
           end
  end.

(** [",".join(pieces)]. *)
Definition join_comma (pieces : list string) : string :=
  String.concat "," pieces.

(** [s[:-1]]: all but the last character (the empty string stays empty). *)
Fixpoint drop_last_char (s : string) : string :=
  match s with
  | EmptyString => EmptyString
  | String c EmptyString => EmptyString
  | String c s' => String c (drop_last_char s')
  end.

(** ** [array.array("q")] *)

Module Array.

(** The elements from the bottom (index 0) to the top (index -1). *)
Definition t : Type := list Z.

Definition INT64_MIN : Z := -9223372036854775808.
Definition INT64_MAX : Z := 9223372036854775807.

(** The values a signed 64-bit slot can hold. *)
Definition fits (v : Z) : bool := (INT64_MIN <=? v) && (v <=? INT64_MAX).

(** [a.append(v)]: [None] stands for [OverflowError]. *)
Definition append (v : Z) (a : t) : option t :=
  if fits v then Some (a ++ [v]) else None.

(** [a.pop()]: removes and returns the last element; [None] stands for
    [IndexError] (pop from an empty array). *)
Fixpoint pop (a : t) : option (Z * t) :=
  match a with
  | [] => None
  | [x] => Some (x, [])
  | x :: a' =>
      match pop a' with
      | Some (v, rest) => Some (v, x :: rest)
      | None => None
      end
  end.

(** [len(a)], which is also [a.buffer_info()[1]]. *)
Definition len (a : t) : Z := Z.of_nat (List.length a).

(** [a[-1]]: [None] stands for [IndexError]. *)
Fixpoint top (a : t) : option Z :=
  match a with
  | [] => None
  | [x] => Some x
  | _ :: a' => top a'
  end.

End Array.

(** ** Python dictionaries keyed by integers

    A [dict] keeps its keys unique and iterates in insertion order. *)

Module Dict.
Section Ops.
Context {V : Type}.

Definition t : Type := list (Z * V).

(** [d.get(k)]; [d[k]] raises [KeyError] where this is [None]. *)
Fixpoint get (k : Z) (d : t) : option V :=
  match d with
  | [] => None
  | (k', v) :: d' => if k =? k' then Some v else get k d'
  end.

(** [k in d]. *)
Definition contains (k : Z) (d : t) : bool :=
  match get k d with Some _ => true | None => false end.

(** [d[k] = v]: replaces the value of an existing key in place, and
    adds a new key at the end. *)
Fixpoint set (k : Z) (v : V) (d : t) : t :=
  match d with
  | [] => [(k, v)]
  | (k', v') :: d' =>
      if k =? k' then (k, v) :: d' else (k', v') :: set k v d'
  end.

(** [del d[k]]: [None] stands for [KeyError]. *)
Fixpoint del (k : Z) (d : t) : option t :=
  match d with
  | [] => None
  | (k', v') :: d' =>
      if k =? k' then Some d'
      else match del k d' with
           | Some d'' => Some ((k', v') :: d'')
           | None => None
           end
  end.

(** [len(d)]. *)
Definition len (d : t) : Z := Z.of_nat (List.length d).

(** [list(d.items())]. *)
Definition items (d : t) : list (Z * V) := d.

(** [d.values()]. *)
Definition values (d : t) : list V := map snd d.

(** Keys of a dictionary are pairwise distinct. *)
Fixpoint wf (d : t) : bool :=
  match d with
  | [] => true
  | (k, _) :: d' => negb (contains k d') && wf d'
  end.

End Ops.
Arguments t : clear implicits.
End Dict.

(** ** The world *)

(** An entry of [app.stacks]: [{"array": ..., "expiry": ...}]. *)
Record stack_entry : Type := mk_entry { array : Array.t; expiry : Z }.

(** [app.stacks] together with the number of times the clock and the
    random source have been read. *)
Record world : Type := mk_world {
  stacks : Dict.t stack_entry;
  ticks : nat;
  draws : nat
}.

Definition with_stacks (d : Dict.t stack_entry) (w : world) : world :=
  {| stacks := d; ticks := ticks w; draws := draws w |}.

(** ** Exceptions and the monad of views *)

Inductive exn : Type := OverflowError | IndexError | KeyError.

Definition exn_eqb (a b : exn) : bool :=
  match a, b with
  | OverflowError, OverflowError | IndexError, IndexError
  | KeyError, KeyError => true
  | _, _ => false
  end.

Inductive result (A : Type) : Type :=
| Val (a : A)
| Raise (e : exn).
Arguments Val {A} a.
Arguments Raise {A} e.

Definition M (A : Type) : Type := world -> result A * world.

Definition ret {A} (a : A) : M A := fun w => (Val a, w).

Definition raise {A} (e : exn) : M A := fun w => (Raise e, w).

Definition bind {A B} (m : M A) (k : A -> M B) : M B :=
  fun w =>
    match m w with
    | (Val a, w') => k a w'
    | (Raise e, w') => (Raise e, w')
    end.

(** [try: m  except e: handler  else: k] where the handler leaves the
    function ([return]) and [k] is the rest of the function. *)
Definition try_except {A B} (m : M A) (e : exn) (handler : M B)
    (k : A -> M B) : M B :=
  fun w =>
    match m w with
    | (Val a, w') => k a w'
    | (Raise e', w') => if exn_eqb e e' then handler w' else (Raise e', w')
    end.

Declare Scope monad_scope.
Delimit Scope monad_scope with monad.
Notation "x <- m ;; k" := (bind m (fun x => k))
  (at level 61, m at next level, right associativity) : monad_scope.
Notation "m ;; k" := (bind m (fun _ => k))
  (at level 61, right associativity) : monad_scope.
Local Open Scope monad_scope.

(** [for x in xs: body(x)]. *)
Fixpoint for_each {A} (xs : list A) (body : A -> M unit) : M unit :=
  match xs with
  | [] => ret tt
  | x :: xs' => body x ;; for_each xs' body
  end.

(** [for x in xs: body(x)] where the body may [return r] ([Some r]),
    which leaves the loop at once. *)
Fixpoint for_return {A R} (xs : list A) (body : A -> M (option R))
    : M (option R) :=
  match xs with
  | [] => ret None
  | x :: xs' =>
      r <- body x ;;
      match r with
      | Some _ => ret r
      | None => for_return xs' body
      end
  end.

(** [[body for _ in range(count)]]: an empty range when [count <= 0]. *)
Fixpoint repeat_collect {A} (count : nat) (body : M A) : M (list A) :=
  match count with
  | O => ret []
  | S count' =>
      x <- body ;;
      xs <- repeat_collect count' body ;;
      ret (x :: xs)
  end.

Definition range_collect {A} (count : Z) (body : M A) : M (list A) :=
  repeat_collect (Z.to_nat count) body.

(** ** Requests and responses *)

(** The rules of the URL map; [no_rule] is a request that no rule of
    [main.py] serves (the flasgger pages, an unknown path or method). *)
Inductive endpoint : Type :=
| ep_home | ep_create | ep_push | ep_push_bulk | ep_pop | ep_pop_bulk
| ep_size | ep_peek | ep_destroy | ep_list_stacks | no_rule.

(** The part of a request the views read: the matched rule and the
    query arguments ([request.args]). *)
Record request : Type := mk_request {
  rule : endpoint;
  args : list (string * string)
}.

(** [request.args.get(name)]: the first value given for [name]. *)
Fixpoint args_get_in (name : string) (l : list (string * string))
    : option string :=
  match l with
  | [] => None
  | (n, v) :: l' => if String.eqb name n then Some v else args_get_in name l'
  end.

Definition args_get (name : string) (req : request) : option string :=
  args_get_in name (args req).

(** What a view returns: a body and a status code. *)
Inductive response : Type := Response (body : string) (status : Z).

(** What Flask sends for a request: the response of the view, its own
    error page after an uncaught exception (status 500), or whatever
    serves a request outside the rules of [main.py]. *)
Inductive outcome : Type :=
| Sent (r : response)
| InternalServerError (e : exn)
| Elsewhere.

(** The failure kinds of the specification, by the responses that carry
    them. *)
Definition Ok : response := Response "Ok" 200.
Definition BadStackId : response := Response "Stack ID must be an integer" 400.
Definition NotFound : response := Response "Stack not found" 404.
Definition NotAnInteger : response := Response "Value must be an integer" 400.
Definition ValueTooLarge : response := Response "Value is too large" 400.
Definition StackOverflow : response := Response "Stack overflow" 400.
Definition MissingInput : response := Response "Values must be provided" 400.
Definition NotAllIntegers : response :=
  Response "All values must be integers" 400.
Definition Underflow : response := Response "Stack underflow" 400.
Definition BadCount : response := Response "Count must be an integer" 400.
Definition Empty : response := Response "Stack is empty" 400.
Definition TooManyStacks : response :=
  Response ("Maximum number of stacks reached (" ++ str MAX_STACKS ++ ")")%string
           400.

(** ** Oracles and harness used to run the model *)

(** The plain decimal literals among the strings [int] accepts: digits
    with an optional leading minus sign. *)
Definition decimal (s : string) : option Z :=
  option_map Z.of_int (NilZero.int_of_string s).

(** A clock that stands still at [now]. *)
Definition frozen (now : Z) : nat -> Z := fun _ => now.

(** Identifiers drawn in sequence from [first]. *)
Definition counter (first : Z) : nat -> Z := fun n => first + Z.of_nat n.

(** [request.args] of a call with an [id] and one more argument. *)
Definition query (ep : endpoint) (id : string) (name value : string)
    : request :=
  {| rule := ep; args := [("id", id); (name, value)] |}.

Definition query_id (ep : endpoint) (id : string) : request :=
  {| rule := ep; args := [("id", id)] |}.

(** The whole of a stack store holding one stack. *)
Definition single (stack_id : Z) (a : Array.t) (exp : Z) : world :=
  {| stacks := [(stack_id, {| array := a; expiry := exp |})];
     ticks := 0; draws := 0 |}.

(** The array held under [stack_id], if any. *)
Definition array_of (stack_id : Z) (w : world) : option Array.t :=
  option_map array (Dict.get stack_id (stacks w)).

(** The expiry held under [stack_id], if any. *)
Definition expiry_of (stack_id : Z) (w : world) : option Z :=
  option_map expiry (Dict.get stack_id (stacks w)).

(** Calls of one view in sequence, each on the world the previous one
    left. *)
Fixpoint call_all (view : request -> M response) (reqs : list request)
    : M (list response) :=
  match reqs with
  | [] => ret []
  | req :: reqs' =>
      r <- view req ;;
      rs <- call_all view reqs' ;;
      ret (r :: rs)
  end.

(** Requests in sequence through Flask. *)
Fixpoint serve (handle : request -> world -> outcome * world)
    (reqs : list request) (w : world) : list outcome * world :=
  match reqs with
  | [] => ([], w)
  | req :: reqs' =>
      let '(o, w') := handle req w in
      let '(os, w'') := serve handle reqs' w' in
      (o :: os, w'')
  end.

(** ** The application *)

Section Server.

(** The readings of [time.time()], in the order they are made. *)
Variable clock : nat -> Z.
(** The values of [int(secrets.token_hex(8), 16)], in the order they
    are drawn. *)
Variable token : nat -> Z.
(** [int(s)] on a [str]; [None] when it raises [ValueError]. *)
Variable int_of_str : string -> option Z.
(** [round(array_size / MAX_STACK_SIZE * 100)], computed in floating
    point by [list_stacks]. *)
Variable percent : Z -> Z.

(** [int(request.args.get(name))] under
    [except (TypeError, ValueError)]: [None] when either is raised. *)
Definition int_arg (name : string) (req : request) : option Z :=
  match args_get name req with
  | None => None
  | Some s => int_of_str s
  end.

(** [[int(value) for value in values]] under the same [except]. *)
Fixpoint ints (values : list string) : option (list Z) :=
  match values with
  | [] => Some []
  | value :: values' =>
      match int_of_str value with
      | None => None
      | Some v =>
          match ints values' with
          | None => None
          | Some vs => Some (v :: vs)
          end
      end
  end.

(** *** Primitive effects *)

Definition time_time : M Z :=
  fun w => (Val (clock (ticks w)),
            {| stacks := stacks w; ticks := S (ticks w); draws := draws w |}).

Definition secrets_token : M Z :=
  fun w => (Val (token (draws w)),
            {| stacks := stacks w; ticks := ticks w; draws := S (draws w) |}).

Definition app_stacks : M (Dict.t stack_entry) :=
  fun w => (Val (stacks w), w).

(** [app.stacks[stack_id]]. *)
Definition stacks_getitem (stack_id : Z) : M stack_entry :=
  fun w =>
    match Dict.get stack_id (stacks w) with
    | Some e => (Val e, w)
    | None => (Raise KeyError, w)
    end.

(** [app.stacks[stack_id] = e]. *)
Definition stacks_setitem (stack_id : Z) (e : stack_entry) : M unit :=
  fun w => (Val tt, with_stacks (Dict.set stack_id e (stacks w)) w).

(** [del app.stacks[stack_id]]. *)
Definition stacks_delitem (stack_id : Z) : M unit :=
  fun w =>
    match Dict.del stack_id (stacks w) with
    | Some d => (Val tt, with_stacks d w)
    | None => (Raise KeyError, w)
    end.

(** The views bind [stack = app.stacks[stack_id]["array"]] and then
    work on [stack], which is the array object of the entry itself:
    the operations below reach it through its key. *)

(** [stack.append(value)]. *)
Definition stack_append (stack_id : Z) (value : Z) : M unit :=
  e <- stacks_getitem stack_id ;;
  match Array.append value (array e) with
  | Some a => stacks_setitem stack_id {| array := a; expiry := expiry e |}
  | None => raise OverflowError
  end.

(** [stack.pop()]. *)
Definition stack_pop (stack_id : Z) : M Z :=
  e <- stacks_getitem stack_id ;;
  match Array.pop (array e) with
  | Some (v, a) =>
      stacks_setitem stack_id {| array := a; expiry := expiry e |} ;;
      ret v
  | None => raise IndexError
  end.

(** [len(stack)] and [stack.buffer_info()[1]]. *)
Definition stack_len (stack_id : Z) : M Z :=
  e <- stacks_getitem stack_id ;;
  ret (Array.len (array e)).

(** [stack[-1]]. *)
Definition stack_top (stack_id : Z) : M Z :=
  e <- stacks_getitem stack_id ;;
  match Array.top (array e) with
  | Some v => ret v
  | None => raise IndexError
  end.

(** *** Expiry *)

Definition refresh_stack_expiry (stack_id : Z) : M unit :=
  now <- time_time ;;
  e <- stacks_getitem stack_id ;;
  stacks_setitem stack_id {| array := array e; expiry := now + ONE_HOUR |}.

Definition remove_expired_stacks : M unit :=
  snapshot <- app_stacks ;;
  for_each (Dict.items snapshot) (fun '(stack_id, stack) =>
    now <- time_time ;;
    if expiry stack <? now then stacks_delitem stack_id else ret tt).

(** *** The decorator *)

Definition require_valid_stack_id (func : Z -> request -> M response)
    : request -> M response :=
  fun req =>
    match int_arg "id" req with
    | None => ret BadStackId
    | Some stack_id =>
        d <- app_stacks ;;
        if negb (Dict.contains stack_id d) then ret NotFound
        else
          refresh_stack_expiry stack_id ;;
          func stack_id req
    end.

(** *** The views *)

Definition home : M response := ret (Response "API is working" 200).

Definition create : M response :=
  d <- app_stacks ;;
  if Dict.len d >=? MAX_STACKS then ret TooManyStacks
  else
    stack_id <- secrets_token ;;
    now <- time_time ;;
    let expiry := now + ONE_HOUR in
    stacks_setitem stack_id {| array := []; expiry := expiry |} ;;
    ret (Response (str stack_id) 201).

Definition push_func (stack_id : Z) (req : request) : M response :=
  match int_arg "value" req with
  | None => ret NotAnInteger
  | Some value =>
      stacks_getitem stack_id ;;
      try_except (stack_append stack_id value) OverflowError
        (ret ValueTooLarge)
        (fun _ =>
           n <- stack_len stack_id ;;
           if n >? MAX_STACK_SIZE then
             stack_pop stack_id ;;
             ret StackOverflow
           else ret Ok)
  end.

Definition push : request -> M response :=
  require_valid_stack_id push_func.

(** The body of the loop of [push_bulk] for one [value]: [Some r]
    when it returns [r] from the view. *)
Definition push_bulk_body (stack_id : Z) (value : Z) : M (option response) :=
  try_except (stack_append stack_id value) OverflowError
    (ret (Some ValueTooLarge))
    (fun _ =>
       n <- stack_len stack_id ;;
       if n >? MAX_STACK_SIZE then
         stack_pop stack_id ;;
         ret (Some StackOverflow)
       else ret None).

Definition push_bulk_func (stack_id : Z) (req : request) : M response :=
  match args_get "values" req with
  | None | Some EmptyString => ret MissingInput
  | Some values =>
      match ints (split_comma values) with
      | None => ret NotAllIntegers
      | Some values =>
          stacks_getitem stack_id ;;
          returned <- for_return values (push_bulk_body stack_id) ;;
          match returned with
          | Some r => ret r
          | None => ret Ok
          end
      end
  end.

Definition push_bulk : request -> M response :=
  require_valid_stack_id push_bulk_func.

Definition pop_func (stack_id : Z) (req : request) : M response :=
  stacks_getitem stack_id ;;
  n <- stack_len stack_id ;;
  if n <=? 0 then ret Underflow
  else
    v <- stack_pop stack_id ;;
    ret (Response (str v) 200).

Definition pop : request -> M response :=
  require_valid_stack_id pop_func.

Definition pop_bulk_func (stack_id : Z) (req : request) : M response :=
  match int_arg "count" req with
  | None => ret BadCount
  | Some count =>
      stacks_getitem stack_id ;;
      n <- stack_len stack_id ;;
      if n <? count then ret Underflow
      else
        popped <- range_collect count
                    (v <- stack_pop stack_id ;; ret (str v)) ;;
        ret (Response (join_comma popped) 200)
  end.

Definition pop_bulk : request -> M response :=
  require_valid_stack_id pop_bulk_func.

Definition size_func (stack_id : Z) (req : request) : M response :=
  e <- stacks_getitem stack_id ;;
  ret (Response (str (Array.len (array e))) 200).

Definition size : request -> M response :=
  require_valid_stack_id size_func.

Definition peek_func (stack_id : Z) (req : request) : M response :=
  stacks_getitem stack_id ;;
  n <- stack_len stack_id ;;
  if n =? 0 then ret Empty
  else
    v <- stack_top stack_id ;;
    ret (Response (str v) 200).

Definition peek : request -> M response :=
  require_valid_stack_id peek_func.

Definition destroy_func (stack_id : Z) (req : request) : M response :=
  stacks_delitem stack_id ;;
  ret Ok.

Definition destroy : request -> M response :=
  require_valid_stack_id destroy_func.

(** The lines of [data], one per entry, numbered from [i]. *)
Fixpoint list_lines (i : Z) (entries : list stack_entry) : string :=
  match entries with
  | [] => EmptyString
  | stack :: entries' =>
      let array_size := Array.len (array stack) in
      (str i ++ ": " ++ str array_size ++ "/" ++ str MAX_STACK_SIZE
         ++ " (" ++ str (percent array_size) ++ "%)" ++ newline
         ++ list_lines (i + 1) entries')%string
  end.

Definition list_stacks : M response :=
  d <- app_stacks ;;
  let stack_count := Dict.len d in
  let data := list_lines 0 (Dict.values d) in
  ret (Response (str stack_count ++ "/" ++ str MAX_STACKS ++ " stacks"
                   ++ newline ++ newline ++ "Stack list:" ++ newline
                   ++ drop_last_char data)%string 200).

(** *** Flask's handling of one request *)

Definition before_request : M unit := remove_expired_stacks.

(** The view function of a rule. *)
Definition view_of (ep : endpoint) : option (request -> M response) :=
  match ep with
  | ep_home => Some (fun _ => home)
  | ep_create => Some (fun _ => create)
  | ep_push => Some push
  | ep_push_bulk => Some push_bulk
  | ep_pop => Some pop
  | ep_pop_bulk => Some pop_bulk
  | ep_size => Some size
  | ep_peek => Some peek
  | ep_destroy => Some destroy
  | ep_list_stacks => Some (fun _ => list_stacks)
  | no_rule => None
  end.

(** One request: the [before_request] hook, then the view of the
    matched rule. An exception raised by either ends the request with
    Flask's error page. *)
Definition handle_request (req : request) (w : world) : outcome * world :=
  match before_request w with
  | (Raise e, w') => (InternalServerError e, w')
  | (Val _, w') =>
      match view_of (rule req) with
      | None => (Elsewhere, w')
      | Some view =>
          match view req w' with
          | (Val r, w'') => (Sent r, w'')
          | (Raise e, w'') => (InternalServerError e, w'')
          end
      end
  end.

(** *** Reference points for the statements *)

(** The world a decorated view leaves when it found [stack_id], read
    the clock once to refresh the expiry, and left the array [a] in
    the entry. *)
Definition touched (stack_id : Z) (a : Array.t) (w : world) : world :=
  {| stacks := Dict.set stack_id
                 {| array := a; expiry := clock (ticks w) + ONE_HOUR |}
                 (stacks w);
     ticks := S (ticks w);
     draws := draws w |}.

(** The loop of [push_bulk] on the array alone: what it returns early
    ([None] when it runs to the end) and the array it leaves. *)
Fixpoint bulk_loop (a : Array.t) (values : list Z)
    : option response * Array.t :=
  match values with
  | [] => (None, a)
  | value :: values' =>
      if Array.fits value then
        if Array.len a + 1 >? MAX_STACK_SIZE then (Some StackOverflow, a)
        else bulk_loop (a ++ [value]) values'
      else (Some ValueTooLarge, a)
  end.

(** The number of elements an array can still take before it holds
    [MAX_STACK_SIZE] of them. *)
Definition room (a : Array.t) : nat :=
  Z.to_nat (MAX_STACK_SIZE - Array.len a).

(** The rules whose view is wrapped by [require_valid_stack_id]. *)
Definition by_id (ep : endpoint) : bool :=
  match ep with
  | ep_push | ep_push_bulk | ep_pop | ep_pop_bulk
  | ep_size | ep_peek | ep_destroy => true
  | ep_home | ep_create | ep_list_stacks | no_rule => false
  end.


(** The entries the sweep keeps, when the first of them is judged at
    the reading number [t] of the clock. *)
Fixpoint swept (t : nat) (entries : list (Z * stack_entry))
    : list (Z * stack_entry) :=
  match entries with
  | [] => []
  | (stack_id, stack) :: entries' =>
      if expiry stack <? clock t then swept (S t) entries'
      else (stack_id, stack) :: swept (S t) entries'
  end.


(** Whether a string holds a comma. *)
Fixpoint has_comma (s : string) : bool :=
  match s with
  | EmptyString => false
  | String c s' => Ascii.eqb c ","%char || has_comma s'
  end.


(** An array as the store keeps it: at most [MAX_STACK_SIZE] elements,
    each in the signed 64-bit range. *)
Definition within_bounds (a : Array.t) : Prop :=
  Array.len a <= MAX_STACK_SIZE /\ Forall (fun v => Array.fits v = true) a.

(** A store as the requests keep it: distinct keys, at most
    [MAX_STACKS] entries, every array within its bounds. *)
Definition store_ok (w : world) : Prop :=
  Dict.wf (stacks w) = true
  /\ Dict.len (stacks w) <= MAX_STACKS
  /\ forall k e, Dict.get k (stacks w) = Some e -> within_bounds (array e).





(** *** The [after_request] hook *)

(** [s.startswith(p)]. *)
Definition startswith (s p : string) : bool := String.prefix p s.

(** [set_plain_text], on the one header it touches: the Content-Type of
    the response after the hook, from [request.path] and the
    Content-Type the response came with. *)
Definition set_plain_text (path : string) (content_type : string) : string :=
  if negb (startswith path "/apidocs")
     && negb (startswith path "/flasgger_static")
  then "text/plain"
  else content_type.

(** The URL of each rule, from the [@app.route] lines. *)
Definition path_of (ep : endpoint) : option string :=
  match ep with
  | ep_home => Some "/"
  | ep_create => Some "/api/create"
  | ep_push => Some "/api/push"
  | ep_push_bulk => Some "/api/push_bulk"
  | ep_pop => Some "/api/pop"
  | ep_pop_bulk => Some "/api/pop_bulk"
  | ep_size => Some "/api/size"
  | ep_peek => Some "/api/peek"
  | ep_destroy => Some "/api/destroy"
  | ep_list_stacks => Some "/api/list"
  | no_rule => None
  end.

(** One line of the listing, without its newline. *)
Definition list_line (i : Z) (stack : stack_entry) : string :=
  (str i ++ ": " ++ str (Array.len (array stack)) ++ "/"
     ++ str MAX_STACK_SIZE ++ " ("
     ++ str (percent (Array.len (array stack))) ++ "%)")%string.

(** The lines of the listing, numbered from [i]. *)
Fixpoint listing (i : Z) (entries : list stack_entry) : list string :=
  match entries with
  | [] => []
  | stack :: entries' => list_line i stack :: listing (i + 1) entries'
  end.


(** ** Facts about arrays *)

Lemma array_pop_snoc (a : Array.t) (v : Z) :
  Array.pop (a ++ [v]) = Some (v, a).
Proof.
  induction a as [|x a IH]; simpl; [reflexivity|].
  rewrite IH. destruct a; reflexivity.
Qed.

Lemma array_pop_inv (a : Array.t) (v : Z) (rest : Array.t) :
  Array.pop a = Some (v, rest) -> a = rest ++ [v].
Proof.
  revert v rest. induction a as [|x a IH]; intros v rest; simpl.
  - discriminate.
  - destruct a as [|y a'].
    + intros [= <- <-]. reflexivity.
    + destruct (Array.pop (y :: a')) as [[v' r']|] eqn:E; [|discriminate].
      intros [= <- <-]. rewrite (IH _ _ eq_refl). reflexivity.
Qed.

Lemma array_pop_nil_iff (a : Array.t) : Array.pop a = None <-> a = [].
Proof.
  split; [|intros ->; reflexivity].
  destruct a as [|x a] using rev_ind; [reflexivity|].
  rewrite array_pop_snoc. discriminate.
Qed.

Lemma array_top_snoc (a : Array.t) (v : Z) : Array.top (a ++ [v]) = Some v.
Proof.
  induction a as [|x a IH]; simpl; [reflexivity|].
  rewrite IH. destruct a; reflexivity.
Qed.

Lemma array_len_snoc (a : Array.t) (v : Z) :
  Array.len (a ++ [v]) = Array.len a + 1.
Proof. unfold Array.len. rewrite length_app. simpl. lia. Qed.

Lemma array_len_app (a b : Array.t) :
  Array.len (a ++ b) = Array.len a + Array.len b.
Proof. unfold Array.len. rewrite length_app. lia. Qed.

Lemma array_len_nonneg (a : Array.t) : 0 <= Array.len a.
Proof. unfold Array.len. lia. Qed.

Lemma array_len_zero (a : Array.t) : Array.len a = 0 -> a = [].
Proof. destruct a; [reflexivity|]. unfold Array.len. simpl. lia. Qed.

Lemma array_append_fits (v : Z) (a : Array.t) :
  Array.fits v = true -> Array.append v a = Some (a ++ [v]).
Proof. unfold Array.append. intros ->. reflexivity. Qed.

Lemma array_append_overflow (v : Z) (a : Array.t) :
  Array.fits v = false -> Array.append v a = None.
Proof. unfold Array.append. intros ->. reflexivity. Qed.

(** ** Facts about dictionaries *)

Section DictFacts.
Context {V : Type}.
Implicit Types (d : Dict.t V) (k : Z) (v : V).

Lemma dict_get_set_same k v d : Dict.get k (Dict.set k v d) = Some v.
Proof.
  induction d as [|[k' v'] d IH]; simpl.
  - rewrite Z.eqb_refl. reflexivity.
  - destruct (k =? k') eqn:E; simpl.
    + rewrite Z.eqb_refl. reflexivity.
    + rewrite E. exact IH.
Qed.

Lemma dict_get_set_other k k' v d :
  k' <> k -> Dict.get k' (Dict.set k v d) = Dict.get k' d.
Proof.
  intros Hne. induction d as [|[k0 v0] d IH]; simpl.
  - destruct (k' =? k) eqn:E; [apply Z.eqb_eq in E; contradiction|].
    reflexivity.
  - destruct (k =? k0) eqn:E; simpl.
    + apply Z.eqb_eq in E. subst k0.
      destruct (k' =? k) eqn:E'; [apply Z.eqb_eq in E'; contradiction|].
      reflexivity.
    + destruct (k' =? k0); [reflexivity|exact IH].
Qed.

Lemma dict_set_set k v v' d :
  Dict.set k v' (Dict.set k v d) = Dict.set k v' d.
Proof.
  induction d as [|[k0 v0] d IH]; simpl.
  - rewrite Z.eqb_refl. reflexivity.
  - destruct (k =? k0) eqn:E; simpl.
    + rewrite Z.eqb_refl. reflexivity.
    + rewrite E, IH. reflexivity.
Qed.

Lemma dict_set_get k v d : Dict.get k d = Some v -> Dict.set k v d = d.
Proof.
  induction d as [|[k0 v0] d IH]; simpl; [discriminate|].
  destruct (k =? k0) eqn:E.
  - apply Z.eqb_eq in E. subst k0. intros [= ->]. reflexivity.
  - intros H. rewrite (IH H). reflexivity.
Qed.

Lemma dict_contains_get k d :
  Dict.contains k d = true <-> exists v, Dict.get k d = Some v.
Proof.
  unfold Dict.contains. destruct (Dict.get k d) as [v|].
  - split; [eauto|reflexivity].
  - split; [discriminate|intros [v [=]]].
Qed.

Lemma dict_contains_false k d :
  Dict.contains k d = false <-> Dict.get k d = None.
Proof.
  unfold Dict.contains. destruct (Dict.get k d); split;
    (discriminate || reflexivity).
Qed.

Lemma dict_len_nonneg d : 0 <= Dict.len d.
Proof. unfold Dict.len. lia. Qed.

Lemma dict_len_set_present k v d :
  Dict.contains k d = true -> Dict.len (Dict.set k v d) = Dict.len d.
Proof.
  unfold Dict.contains, Dict.len.
  induction d as [|[k0 v0] d IH]; simpl; [discriminate|].
  destruct (k =? k0) eqn:E; simpl; [reflexivity|].
  intros H. specialize (IH H). lia.
Qed.

Lemma dict_len_set_absent k v d :
  Dict.contains k d = false -> Dict.len (Dict.set k v d) = Dict.len d + 1.
Proof.
  unfold Dict.contains, Dict.len.
  induction d as [|[k0 v0] d IH]; simpl; [lia|].
  destruct (k =? k0) eqn:E; simpl; [discriminate|].
  intros H. specialize (IH H). lia.
Qed.

Lemma dict_len_set_le k v d :
  Dict.len d <= Dict.len (Dict.set k v d) <= Dict.len d + 1.
Proof.
  destruct (Dict.contains k d) eqn:E.
  - rewrite (dict_len_set_present _ _ _ E). lia.
  - rewrite (dict_len_set_absent _ _ _ E). lia.
Qed.

Lemma dict_del_present k d :
  Dict.contains k d = true -> exists d', Dict.del k d = Some d'.
Proof.
  unfold Dict.contains.
  induction d as [|[k0 v0] d IH]; simpl; [discriminate|].
  destruct (k =? k0); [eauto|].
  intros H. destruct (IH H) as [d' ->]. eauto.
Qed.

Lemma dict_del_absent k d :
  Dict.contains k d = false -> Dict.del k d = None.
Proof.
  unfold Dict.contains.
  induction d as [|[k0 v0] d IH]; simpl; [reflexivity|].
  destruct (k =? k0); [discriminate|].
  intros H. rewrite (IH H). reflexivity.
Qed.

Lemma dict_len_del k d d' :
  Dict.del k d = Some d' -> Dict.len d' = Dict.len d - 1.
Proof.
  unfold Dict.len. revert d'.
  induction d as [|[k0 v0] d IH]; intros d'; cbn [Dict.del];
    [discriminate|].
  destruct (k =? k0).
  - intros [= <-]. cbn [List.length]. lia.
  - destruct (Dict.del k d) as [d''|]; [|discriminate].
    intros [= <-]. specialize (IH _ eq_refl). cbn [List.length]. lia.
Qed.

Lemma dict_get_del_other k k' d d' :
  Dict.del k d = Some d' -> k' <> k -> Dict.get k' d' = Dict.get k' d.
Proof.
  revert d'.
  induction d as [|[k0 v0] d IH]; intros d'; simpl; [discriminate|].
  destruct (k =? k0) eqn:E.
  - apply Z.eqb_eq in E. subst k0. intros [= <-] Hne.
    destruct (k' =? k) eqn:E'; [apply Z.eqb_eq in E'; contradiction|].
    reflexivity.
  - destruct (Dict.del k d) as [d''|]; [|discriminate].
    intros [= <-] Hne. simpl. rewrite (IH _ eq_refl Hne). reflexivity.
Qed.

Lemma dict_get_del_same k d d' :
  Dict.wf d = true -> Dict.del k d = Some d' -> Dict.get k d' = None.
Proof.
  revert d'.
  induction d as [|[k0 v0] d IH]; intros d'; simpl; [discriminate|].
  intros Hwf. apply andb_true_iff in Hwf. destruct Hwf as [Hk0 Hwf].
  destruct (k =? k0) eqn:E.
  - apply Z.eqb_eq in E. subst k0. intros [= <-].
    apply dict_contains_false. apply negb_true_iff. exact Hk0.
  - destruct (Dict.del k d) as [d''|]; [|discriminate].
    intros [= <-]. simpl. rewrite E. apply IH; [exact Hwf|reflexivity].
Qed.

Lemma dict_wf_del k d d' :
  Dict.wf d = true -> Dict.del k d = Some d' -> Dict.wf d' = true.
Proof.
  revert d'.
  induction d as [|[k0 v0] d IH]; intros d'; simpl; [discriminate|].
  intros Hwf. apply andb_true_iff in Hwf. destruct Hwf as [Hk0 Hwf].
  destruct (k =? k0) eqn:E.
  - intros [= <-]. exact Hwf.
  - destruct (Dict.del k d) as [d''|] eqn:Hdel; [|discriminate].
    intros [= <-]. simpl. rewrite (IH _ Hwf eq_refl), andb_true_r.
    apply negb_true_iff, dict_contains_false.
    rewrite (dict_get_del_other _ _ _ _ Hdel).
    + apply dict_contains_false, negb_true_iff. exact Hk0.
    + intros ->. rewrite Z.eqb_refl in E. discriminate.
Qed.

Lemma dict_wf_set k v d : Dict.wf d = true -> Dict.wf (Dict.set k v d) = true.
Proof.
  induction d as [|[k0 v0] d IH]; simpl; [reflexivity|].
  intros Hwf. apply andb_true_iff in Hwf. destruct Hwf as [Hk0 Hwf].
  destruct (k =? k0) eqn:E; simpl.
  - apply Z.eqb_eq in E. subst k0. rewrite Hk0, Hwf. reflexivity.
  - rewrite (IH Hwf), andb_true_r.
    apply negb_true_iff, dict_contains_false.
    rewrite dict_get_set_other.
    + apply dict_contains_false, negb_true_iff. exact Hk0.
    + intros ->. rewrite Z.eqb_refl in E. discriminate.
Qed.

End DictFacts.

(** ** The monad *)

Lemma bind_val {A B} (m : M A) (k : A -> M B) (w w' : world) (a : A) :
  m w = (Val a, w') -> bind m k w = k a w'.
Proof. unfold bind. intros ->. reflexivity. Qed.

Lemma bind_raise {A B} (m : M A) (k : A -> M B) (w w' : world) (e : exn) :
  m w = (Raise e, w') -> bind m k w = (Raise e, w').
Proof. unfold bind. intros ->. reflexivity. Qed.

(** ** The effects of the primitives on a touched world *)

Lemma touched_get (stack_id : Z) (a : Array.t) (w : world) :
  Dict.get stack_id (stacks (touched stack_id a w))
  = Some {| array := a; expiry := clock (ticks w) + ONE_HOUR |}.
Proof. apply dict_get_set_same. Qed.

Lemma touched_get_other (stack_id k : Z) (a : Array.t) (w : world) :
  k <> stack_id ->
  Dict.get k (stacks (touched stack_id a w)) = Dict.get k (stacks w).
Proof. intros H. apply dict_get_set_other. exact H. Qed.

Lemma touched_again (stack_id : Z) (a a' : Array.t) (w : world) :
  with_stacks
    (Dict.set stack_id
       {| array := a'; expiry := clock (ticks w) + ONE_HOUR |}
       (stacks (touched stack_id a w)))
    (touched stack_id a w)
  = touched stack_id a' w.
Proof.
  unfold with_stacks, touched. cbn [stacks ticks draws].
  rewrite dict_set_set. reflexivity.
Qed.

Lemma getitem_touched (stack_id : Z) (a : Array.t) (w : world) :
  stacks_getitem stack_id (touched stack_id a w)
  = (Val {| array := a; expiry := clock (ticks w) + ONE_HOUR |},
     touched stack_id a w).
Proof. unfold stacks_getitem. rewrite touched_get. reflexivity. Qed.

Lemma append_touched (stack_id : Z) (a : Array.t) (v : Z) (w : world) :
  Array.fits v = true ->
  stack_append stack_id v (touched stack_id a w)
  = (Val tt, touched stack_id (a ++ [v]) w).
Proof.
  intros Hfit. unfold stack_append, bind.
  rewrite getitem_touched. cbn [array expiry].
  rewrite (array_append_fits _ _ Hfit).
  unfold stacks_setitem. rewrite touched_again. reflexivity.
Qed.

Lemma append_touched_overflow (stack_id : Z) (a : Array.t) (v : Z)
    (w : world) :
  Array.fits v = false ->
  stack_append stack_id v (touched stack_id a w)
  = (Raise OverflowError, touched stack_id a w).
Proof.
  intros Hfit. unfold stack_append, bind.
  rewrite getitem_touched. cbn [array expiry].
  rewrite (array_append_overflow _ _ Hfit). reflexivity.
Qed.

Lemma pop_touched (stack_id : Z) (a : Array.t) (v : Z) (w : world) :
  stack_pop stack_id (touched stack_id (a ++ [v]) w)
  = (Val v, touched stack_id a w).
Proof.
  unfold stack_pop, bind.
  rewrite getitem_touched. cbn [array expiry].
  rewrite array_pop_snoc.
  unfold stacks_setitem. rewrite touched_again. reflexivity.
Qed.

Lemma len_touched (stack_id : Z) (a : Array.t) (w : world) :
  stack_len stack_id (touched stack_id a w)
  = (Val (Array.len a), touched stack_id a w).
Proof.
  unfold stack_len, bind. rewrite getitem_touched. reflexivity.
Qed.

Lemma top_touched (stack_id : Z) (a : Array.t) (v : Z) (w : world) :
  stack_top stack_id (touched stack_id (a ++ [v]) w)
  = (Val v, touched stack_id (a ++ [v]) w).
Proof.
  unfold stack_top, bind. rewrite getitem_touched. cbn [array].
  rewrite array_top_snoc. reflexivity.
Qed.

(** ** The decorator *)

Lemma refresh_found (stack_id : Z) (e : stack_entry) (w : world) :
  Dict.get stack_id (stacks w) = Some e ->
  refresh_stack_expiry stack_id w = (Val tt, touched stack_id (array e) w).
Proof.
  intros Hget. unfold refresh_stack_expiry, bind, time_time.
  unfold stacks_getitem. cbn [stacks]. rewrite Hget. reflexivity.
Qed.

Lemma decorator_found (func : Z -> request -> M response) (req : request)
    (stack_id : Z) (e : stack_entry) (w : world) :
  int_arg "id" req = Some stack_id ->
  Dict.get stack_id (stacks w) = Some e ->
  require_valid_stack_id func req w
  = func stack_id req (touched stack_id (array e) w).
Proof.
  intros Hid Hget. unfold require_valid_stack_id. rewrite Hid.
  unfold bind at 1. unfold app_stacks.
  unfold Dict.contains. rewrite Hget. cbn [negb].
  unfold bind. rewrite (refresh_found _ _ _ Hget). reflexivity.
Qed.

Lemma decorator_missing (func : Z -> request -> M response) (req : request)
    (stack_id : Z) (w : world) :
  int_arg "id" req = Some stack_id ->
  Dict.get stack_id (stacks w) = None ->
  require_valid_stack_id func req w = (Val NotFound, w).
Proof.
  intros Hid Hget. unfold require_valid_stack_id. rewrite Hid.
  unfold bind, app_stacks, Dict.contains. rewrite Hget. reflexivity.
Qed.

Lemma decorator_bad_id (func : Z -> request -> M response) (req : request)
    (w : world) :
  int_arg "id" req = None ->
  require_valid_stack_id func req w = (Val BadStackId, w).
Proof.
  intros Hid. unfold require_valid_stack_id. rewrite Hid. reflexivity.
Qed.

(** ** [push] *)

Lemma push_func_touched (stack_id : Z) (req : request) (a : Array.t)
    (v : Z) (w : world) :
  int_arg "value" req = Some v ->
  push_func stack_id req (touched stack_id a w)
  = if Array.fits v then
      if Array.len a + 1 >? MAX_STACK_SIZE
      then (Val StackOverflow, touched stack_id a w)
      else (Val Ok, touched stack_id (a ++ [v]) w)
    else (Val ValueTooLarge, touched stack_id a w).
Proof.
  intros Hv. unfold push_func. rewrite Hv.
  unfold bind at 1. rewrite getitem_touched.
  unfold try_except.
  destruct (Array.fits v) eqn:Hfit.
  - rewrite (append_touched _ _ _ _ Hfit).
    unfold bind at 1. rewrite len_touched, array_len_snoc.
    destruct (Array.len a + 1 >? MAX_STACK_SIZE).
    + unfold bind. rewrite pop_touched. reflexivity.
    + reflexivity.
  - rewrite (append_touched_overflow _ _ _ _ Hfit). reflexivity.
Qed.

(** ** [push_bulk] *)

Lemma push_bulk_body_touched (stack_id : Z) (a : Array.t) (v : Z)
    (w : world) :
  push_bulk_body stack_id v (touched stack_id a w)
  = if Array.fits v then
      if Array.len a + 1 >? MAX_STACK_SIZE
      then (Val (Some StackOverflow), touched stack_id a w)
      else (Val None, touched stack_id (a ++ [v]) w)
    else (Val (Some ValueTooLarge), touched stack_id a w).
Proof.
  unfold push_bulk_body, try_except.
  destruct (Array.fits v) eqn:Hfit.
  - rewrite (append_touched _ _ _ _ Hfit).
    unfold bind at 1. rewrite len_touched, array_len_snoc.
    destruct (Array.len a + 1 >? MAX_STACK_SIZE).
    + unfold bind. rewrite pop_touched. reflexivity.
    + reflexivity.
  - rewrite (append_touched_overflow _ _ _ _ Hfit). reflexivity.
Qed.

Lemma for_return_touched (stack_id : Z) (vs : list Z) (a : Array.t)
    (w : world) :
  for_return vs (push_bulk_body stack_id) (touched stack_id a w)
  = (Val (fst (bulk_loop a vs)), touched stack_id (snd (bulk_loop a vs)) w).
Proof.
  revert a. induction vs as [|v vs IH]; intros a; cbn [for_return bulk_loop].
  - reflexivity.
  - unfold bind. rewrite push_bulk_body_touched.
    destruct (Array.fits v); [|reflexivity].
    destruct (Array.len a + 1 >? MAX_STACK_SIZE); [reflexivity|].
    apply IH.
Qed.

Lemma push_bulk_func_touched (stack_id : Z) (req : request) (s : string)
    (vs : list Z) (a : Array.t) (w : world) :
  args_get "values" req = Some s -> s <> EmptyString ->
  ints (split_comma s) = Some vs ->
  push_bulk_func stack_id req (touched stack_id a w)
  = (Val (match fst (bulk_loop a vs) with Some r => r | None => Ok end),
     touched stack_id (snd (bulk_loop a vs)) w).
Proof.
  intros Hs Hne Hvs. unfold push_bulk_func. rewrite Hs.
  destruct s as [|c s']; [contradiction|]. rewrite Hvs.
  unfold bind at 1. rewrite getitem_touched.
  unfold bind. rewrite for_return_touched.
  destruct (fst (bulk_loop a vs)); reflexivity.
Qed.

Lemma push_bulk_func_not_integers (stack_id : Z) (req : request)
    (s : string) (w : world) :
  args_get "values" req = Some s -> s <> EmptyString ->
  ints (split_comma s) = None ->
  push_bulk_func stack_id req w = (Val NotAllIntegers, w).
Proof.
  intros Hs Hne Hvs. unfold push_bulk_func. rewrite Hs.
  destruct s as [|c s']; [contradiction|]. rewrite Hvs. reflexivity.
Qed.

Lemma push_bulk_func_missing (stack_id : Z) (req : request) (w : world) :
  args_get "values" req = None \/ args_get "values" req = Some EmptyString ->
  push_bulk_func stack_id req w = (Val MissingInput, w).
Proof.
  intros [H|H]; unfold push_bulk_func; rewrite H; reflexivity.
Qed.

(** The loop on the array alone. *)

Lemma bulk_loop_all (a : Array.t) (vs : list Z) :
  Forall (fun v => Array.fits v = true) vs ->
  Array.len a + Array.len vs <= MAX_STACK_SIZE ->
  bulk_loop a vs = (None, a ++ vs).
Proof.
  intros Hfit. revert a.
  induction Hfit as [|v vs Hv _ IH]; intros a Hroom; cbn [bulk_loop].
  - rewrite app_nil_r. reflexivity.
  - rewrite Hv. change (v :: vs) with ([v] ++ vs) in Hroom.
    rewrite array_len_app in Hroom.
    pose proof (array_len_nonneg vs) as Hvs.
    change (Array.len [v]) with 1 in Hroom.
    destruct (Array.len a + 1 >? MAX_STACK_SIZE) eqn:E; [lia|].
    rewrite IH by (rewrite array_len_snoc; lia).
    rewrite <- app_assoc. reflexivity.
Qed.

Lemma bulk_loop_stops (a : Array.t) (pre : list Z) (v : Z) (post : list Z) :
  Forall (fun v => Array.fits v = true) pre ->
  Array.len a + Array.len pre <= MAX_STACK_SIZE ->
  bulk_loop a (pre ++ v :: post)
  = if Array.fits v then
      if Array.len a + Array.len pre + 1 >? MAX_STACK_SIZE
      then (Some StackOverflow, a ++ pre)
      else bulk_loop (a ++ pre ++ [v]) post
    else (Some ValueTooLarge, a ++ pre).
Proof.
  intros Hfit. revert a.
  induction Hfit as [|x pre Hx _ IH]; intros a Hroom.
  - cbn [app bulk_loop]. change (Array.len []) with 0.
    rewrite Z.add_0_r, app_nil_r. reflexivity.
  - cbn [app bulk_loop]. rewrite Hx.
    change (x :: pre) with ([x] ++ pre) in Hroom |- *.
    rewrite array_len_app in Hroom |- *.
    pose proof (array_len_nonneg pre) as Hpre.
    change (Array.len [x]) with 1 in Hroom |- *.
    destruct (Array.len a + 1 >? MAX_STACK_SIZE) eqn:E; [lia|].
    rewrite IH by (rewrite array_len_snoc; lia).
    rewrite array_len_snoc.
    replace (Array.len a + 1 + Array.len pre + 1)
      with (Array.len a + (1 + Array.len pre) + 1) by lia.
    rewrite <- !app_assoc. reflexivity.
Qed.

(** Whatever the batch, the loop leaves the array extended by a prefix
    of the batch, and stops early only at the first element that does
    not fit a slot or finds the stack full. *)
Lemma bulk_loop_inv (a : Array.t) (vs : list Z) :
  match fst (bulk_loop a vs) with
  | None =>
      snd (bulk_loop a vs) = a ++ vs
      /\ Forall (fun v => Array.fits v = true) vs
  | Some r =>
      exists pre v post,
        vs = pre ++ v :: post
        /\ snd (bulk_loop a vs) = a ++ pre
        /\ Forall (fun v => Array.fits v = true) pre
        /\ ((r = ValueTooLarge /\ Array.fits v = false)
            \/ (r = StackOverflow /\ Array.fits v = true
                /\ Array.len (a ++ pre) + 1 > MAX_STACK_SIZE))
  end.
Proof.
  revert a. induction vs as [|x vs IH]; intros a; cbn [bulk_loop].
  - cbn [fst snd]. rewrite app_nil_r. split; [reflexivity|constructor].
  - destruct (Array.fits x) eqn:Hx.
    + destruct (Array.len a + 1 >? MAX_STACK_SIZE) eqn:E.
      * cbn [fst snd]. exists [], x, vs. rewrite app_nil_r.
        repeat split; [constructor|]. right. repeat split; [exact Hx|lia].
      * specialize (IH (a ++ [x])).
        destruct (fst (bulk_loop (a ++ [x]) vs)) as [r|].
        -- destruct IH as (pre & v & post & -> & Hsnd & Hpre & Hr).
           exists (x :: pre), v, post.
           rewrite Hsnd, <- app_assoc. cbn [app].
           repeat split; [constructor; assumption|].
           rewrite <- app_assoc in Hr. exact Hr.
        -- destruct IH as [Hsnd Hall]. rewrite Hsnd, <- app_assoc.
           split; [reflexivity|constructor; assumption].
    + cbn [fst snd]. exists [], x, vs. rewrite app_nil_r.
      repeat split; [constructor|]. left. split; [reflexivity|exact Hx].
Qed.

(** ** [pop], [pop_bulk], [size], [peek] and [destroy] *)

Lemma pop_func_empty (stack_id : Z) (req : request) (w : world) :
  pop_func stack_id req (touched stack_id [] w)
  = (Val Underflow, touched stack_id [] w).
Proof.
  unfold pop_func. unfold bind at 1. rewrite getitem_touched.
  unfold bind at 1. rewrite len_touched. reflexivity.
Qed.

Lemma pop_func_snoc (stack_id : Z) (req : request) (a : Array.t) (v : Z)
    (w : world) :
  pop_func stack_id req (touched stack_id (a ++ [v]) w)
  = (Val (Response (str v) 200), touched stack_id a w).
Proof.
  unfold pop_func. unfold bind at 1. rewrite getitem_touched.
  unfold bind at 1. rewrite len_touched, array_len_snoc.
  pose proof (array_len_nonneg a) as Ha.
  destruct (Array.len a + 1 <=? 0) eqn:E; [lia|].
  unfold bind. rewrite pop_touched. reflexivity.
Qed.

(** Popping as many times as there are elements in [xs], from an array
    that ends with [xs] in push order, collects them in pop order. *)
Lemma repeat_pop_touched (stack_id : Z) (xs : list Z) (base : Array.t)
    (w : world) :
  repeat_collect (List.length xs)
    (v <- stack_pop stack_id ;; ret (str v))
    (touched stack_id (base ++ rev xs) w)
  = (Val (map str xs), touched stack_id base w).
Proof.
  induction xs as [|x xs IH]; cbn [rev List.length repeat_collect map].
  - rewrite app_nil_r. reflexivity.
  - rewrite app_assoc.
    erewrite bind_val
      by (erewrite bind_val by apply pop_touched; reflexivity).
    erewrite bind_val by apply IH. reflexivity.
Qed.

Lemma pop_bulk_func_underflow (stack_id : Z) (req : request) (a : Array.t)
    (count : Z) (w : world) :
  int_arg "count" req = Some count ->
  Array.len a < count ->
  pop_bulk_func stack_id req (touched stack_id a w)
  = (Val Underflow, touched stack_id a w).
Proof.
  intros Hc Hlt. unfold pop_bulk_func. rewrite Hc.
  unfold bind at 1. rewrite getitem_touched.
  unfold bind at 1. rewrite len_touched.
  destruct (Array.len a <? count) eqn:E; [reflexivity|lia].
Qed.

Lemma pop_bulk_func_enough (stack_id : Z) (req : request) (a : Array.t)
    (count : Z) (w : world) :
  int_arg "count" req = Some count ->
  count <= Array.len a ->
  pop_bulk_func stack_id req (touched stack_id a w)
  = (Val (Response
            (join_comma
               (map str
                  (rev (skipn (List.length a - Z.to_nat count) a)))) 200),
     touched stack_id (firstn (List.length a - Z.to_nat count) a) w).
Proof.
  intros Hc Hle. unfold pop_bulk_func. rewrite Hc.
  unfold bind at 1. rewrite getitem_touched.
  unfold bind at 1. rewrite len_touched.
  destruct (Array.len a <? count) eqn:E; [lia|].
  unfold range_collect.
  set (keep := (List.length a - Z.to_nat count)%nat).
  assert (Hlen : Z.to_nat count
                 = List.length (rev (skipn keep a))).
  { rewrite length_rev, length_skipn. unfold Array.len in Hle.
    subst keep. lia. }
  pose proof (repeat_pop_touched stack_id (rev (skipn keep a))
                (firstn keep a) w) as Hrun.
  rewrite rev_involutive, firstn_skipn, <- Hlen in Hrun.
  erewrite bind_val by exact Hrun. reflexivity.
Qed.

Lemma size_func_touched (stack_id : Z) (req : request) (a : Array.t)
    (w : world) :
  size_func stack_id req (touched stack_id a w)
  = (Val (Response (str (Array.len a)) 200), touched stack_id a w).
Proof. unfold size_func, bind. rewrite getitem_touched. reflexivity. Qed.

Lemma peek_func_empty (stack_id : Z) (req : request) (w : world) :
  peek_func stack_id req (touched stack_id [] w)
  = (Val Empty, touched stack_id [] w).
Proof.
  unfold peek_func. unfold bind at 1. rewrite getitem_touched.
  unfold bind at 1. rewrite len_touched. reflexivity.
Qed.

Lemma peek_func_snoc (stack_id : Z) (req : request) (a : Array.t) (v : Z)
    (w : world) :
  peek_func stack_id req (touched stack_id (a ++ [v]) w)
  = (Val (Response (str v) 200), touched stack_id (a ++ [v]) w).
Proof.
  unfold peek_func. unfold bind at 1. rewrite getitem_touched.
  unfold bind at 1. rewrite len_touched, array_len_snoc.
  pose proof (array_len_nonneg a) as Ha.
  destruct (Array.len a + 1 =? 0) eqn:E; [lia|].
  unfold bind. rewrite top_touched. reflexivity.
Qed.

Lemma destroy_func_touched (stack_id : Z) (req : request) (a : Array.t)
    (w : world) :
  exists d,
    Dict.del stack_id (stacks (touched stack_id a w)) = Some d
    /\ destroy_func stack_id req (touched stack_id a w)
       = (Val Ok, with_stacks d (touched stack_id a w)).
Proof.
  destruct (dict_del_present stack_id (stacks (touched stack_id a w)))
    as [d Hd].
  { apply dict_contains_get. eexists. apply touched_get. }
  exists d. split; [exact Hd|].
  unfold destroy_func, bind, stacks_delitem. rewrite Hd. reflexivity.
Qed.

(** ** Properties of the views *)

Lemma array_of_touched (stack_id : Z) (a : Array.t) (w : world) :
  array_of stack_id (touched stack_id a w) = Some a.
Proof. unfold array_of. rewrite touched_get. reflexivity. Qed.

Lemma expiry_of_touched (stack_id : Z) (a : Array.t) (w : world) :
  expiry_of stack_id (touched stack_id a w)
  = Some (clock (ticks w) + ONE_HOUR).
Proof. unfold expiry_of. rewrite touched_get. reflexivity. Qed.

(** C4. On a stack that holds [MAX_STACK_SIZE] elements, [push] of a
    value that fits a signed 64-bit slot answers "Stack overflow" and
    leaves the array as it was (the appended value is popped again),
    so that [size] still reports [MAX_STACK_SIZE]; on a stack that
    holds fewer, it answers "Ok" and the value is the new last
    element. *)
Theorem push_capacity (req q : request) (w : world) (stack_id : Z)
    (e : stack_entry) (v : Z) :
  int_arg "id" req = Some stack_id ->
  Dict.get stack_id (stacks w) = Some e ->
  int_arg "value" req = Some v ->
  Array.fits v = true ->
  int_arg "id" q = Some stack_id ->
  (Array.len (array e) = MAX_STACK_SIZE ->
     push req w = (Val StackOverflow, touched stack_id (array e) w)
     /\ fst (size q (touched stack_id (array e) w))
        = Val (Response (str MAX_STACK_SIZE) 200))
  /\ (Array.len (array e) < MAX_STACK_SIZE ->
        push req w = (Val Ok, touched stack_id (array e ++ [v]) w)).
Proof.
  intros Hid Hget Hv Hfit Hq.
  unfold push. rewrite (decorator_found _ _ _ _ _ Hid Hget).
  rewrite (push_func_touched _ _ _ _ _ Hv), Hfit.
  split.
  - intros Hfull.
    destruct (Array.len (array e) + 1 >? MAX_STACK_SIZE) eqn:E; [|lia].
    split; [reflexivity|].
    unfold size.
    rewrite (decorator_found _ _ _ _ _ Hq (touched_get _ _ _)).
    cbn [array]. rewrite size_func_touched, Hfull. reflexivity.
  - intros Hless.
    destruct (Array.len (array e) + 1 >? MAX_STACK_SIZE) eqn:E; [lia|].
    reflexivity.
Qed.

(** C3. [pop_bulk] with a count above the length of the stack answers
    "Stack underflow" and leaves the array as it was; with a count
    between 0 and the length it removes the last [count] elements and
    returns them from the last one pushed to the first. *)
Theorem pop_bulk_atomic (req : request) (w : world) (stack_id : Z)
    (e : stack_entry) (count : Z) :
  int_arg "id" req = Some stack_id ->
  Dict.get stack_id (stacks w) = Some e ->
  int_arg "count" req = Some count ->
  (Array.len (array e) < count ->
     pop_bulk req w = (Val Underflow, touched stack_id (array e) w))
  /\ (0 <= count <= Array.len (array e) ->
        let keep := (List.length (array e) - Z.to_nat count)%nat in
        pop_bulk req w
        = (Val (Response
                  (join_comma (map str (rev (skipn keep (array e))))) 200),
           touched stack_id (firstn keep (array e)) w)
        /\ Array.len (skipn keep (array e)) = count
        /\ Array.len (firstn keep (array e)) = Array.len (array e) - count).
Proof.
  intros Hid Hget Hc.
  unfold pop_bulk. rewrite (decorator_found _ _ _ _ _ Hid Hget).
  split.
  - intros Hlt. apply (pop_bulk_func_underflow _ _ _ _ _ Hc Hlt).
  - intros [H0 Hle]. cbv zeta. split; [|split].
    + apply (pop_bulk_func_enough _ _ _ _ _ Hc Hle).
    + unfold Array.len in *. rewrite length_skipn. lia.
    + unfold Array.len in *. rewrite length_firstn. lia.
Qed.

(** C10. [pop_bulk] with a negative count answers with status 200 and
    an empty body, and leaves the array as it was: the only check is
    [len(stack) < count]. *)
Theorem pop_bulk_negative_count (req : request) (w : world) (stack_id : Z)
    (e : stack_entry) (count : Z) :
  int_arg "id" req = Some stack_id ->
  Dict.get stack_id (stacks w) = Some e ->
  int_arg "count" req = Some count ->
  count < 0 ->
  pop_bulk req w
  = (Val (Response EmptyString 200), touched stack_id (array e) w).
Proof.
  intros Hid Hget Hc Hneg.
  unfold pop_bulk. rewrite (decorator_found _ _ _ _ _ Hid Hget).
  pose proof (array_len_nonneg (array e)) as Hlen.
  rewrite (pop_bulk_func_enough _ _ _ _ _ Hc) by lia.
  replace (Z.to_nat count) with 0%nat by lia.
  rewrite Nat.sub_0_r, skipn_all, firstn_all. reflexivity.
Qed.

Lemma firstn_succ_skipn {A} (n : nat) (l : list A) (x : A) (post : list A) :
  skipn n l = x :: post -> firstn (S n) l = firstn n l ++ [x].
Proof.
  revert l. induction n as [|n IH]; intros l.
  - cbn [skipn]. intros ->. reflexivity.
  - destruct l as [|y l]; [discriminate|].
    cbn [skipn]. intros H. rewrite firstn_cons, (IH _ H). reflexivity.
Qed.

(** C2. When the batch of [push_bulk] holds more elements than the
    stack can still take, and the elements up to the first one that
    finds the stack full fit a signed 64-bit slot, the call answers
    "Stack overflow"; the elements before that one stay appended, in
    the order of the batch, and the stack holds [MAX_STACK_SIZE]
    elements. *)
Theorem push_bulk_past_capacity (req : request) (w : world) (stack_id : Z)
    (e : stack_entry) (s : string) (vs : list Z) :
  int_arg "id" req = Some stack_id ->
  Dict.get stack_id (stacks w) = Some e ->
  args_get "values" req = Some s -> s <> EmptyString ->
  ints (split_comma s) = Some vs ->
  Array.len (array e) <= MAX_STACK_SIZE ->
  MAX_STACK_SIZE < Array.len (array e) + Array.len vs ->
  Forall (fun v => Array.fits v = true) (firstn (S (room (array e))) vs) ->
  push_bulk req w
  = (Val StackOverflow,
     touched stack_id (array e ++ firstn (room (array e)) vs) w)
  /\ Array.len (array e ++ firstn (room (array e)) vs) = MAX_STACK_SIZE.
Proof.
  intros Hid Hget Hs Hne Hvs Hle Hover Hfit.
  set (a := array e) in *. set (n := room a) in *.
  assert (Hn : Z.of_nat n = MAX_STACK_SIZE - Array.len a)
    by (subst n; unfold room; lia).
  assert (Hlong : (n < List.length vs)%nat)
    by (unfold Array.len in *; lia).
  destruct (skipn n vs) as [|v post] eqn:Hskip.
  { apply (f_equal (@List.length Z)) in Hskip.
    rewrite length_skipn in Hskip. cbn in Hskip. lia. }
  rewrite (firstn_succ_skipn _ _ _ _ Hskip) in Hfit.
  apply Forall_app in Hfit. destruct Hfit as [Hpre Hv].
  apply Forall_inv in Hv.
  assert (Hprelen : Array.len (firstn n vs) = Z.of_nat n).
  { unfold Array.len. rewrite length_firstn. lia. }
  split.
  - unfold push_bulk. rewrite (decorator_found _ _ _ _ _ Hid Hget).
    fold a. rewrite (push_bulk_func_touched _ _ _ _ _ _ Hs Hne Hvs).
    rewrite <- (firstn_skipn n vs) at 1 2. rewrite Hskip.
    rewrite (bulk_loop_stops _ _ _ _ Hpre) by lia.
    rewrite Hv.
    destruct (Array.len a + Array.len (firstn n vs) + 1 >? MAX_STACK_SIZE)
      eqn:E; [reflexivity|lia].
  - rewrite array_len_app. lia.
Qed.

(** C1, as the code has it. When some element of the batch is not an
    integer, [push_bulk] answers "All values must be integers" and
    nothing has been appended: the whole batch is converted before the
    loop. Whether an element fits a signed 64-bit slot is found out
    only when the loop appends it: when the call answers "Value is
    too large", the elements of the batch before the first one that
    does not fit have been appended and stay. *)
Theorem push_bulk_invalid_batch (req : request) (w : world) (stack_id : Z)
    (e : stack_entry) (s : string) :
  int_arg "id" req = Some stack_id ->
  Dict.get stack_id (stacks w) = Some e ->
  args_get "values" req = Some s -> s <> EmptyString ->
  (ints (split_comma s) = None ->
     push_bulk req w = (Val NotAllIntegers, touched stack_id (array e) w))
  /\ (forall vs w',
        ints (split_comma s) = Some vs ->
        push_bulk req w = (Val ValueTooLarge, w') ->
        exists pre v post,
          vs = pre ++ v :: post
          /\ Forall (fun x => Array.fits x = true) pre
          /\ Array.fits v = false
          /\ w' = touched stack_id (array e ++ pre) w)
  /\ (forall pre v post,
        ints (split_comma s) = Some (pre ++ v :: post) ->
        Forall (fun x => Array.fits x = true) pre ->
        Array.fits v = false ->
        Array.len (array e) + Array.len pre <= MAX_STACK_SIZE ->
        push_bulk req w
        = (Val ValueTooLarge, touched stack_id (array e ++ pre) w)).
Proof.
  intros Hid Hget Hs Hne.
  unfold push_bulk. rewrite (decorator_found _ _ _ _ _ Hid Hget).
  split; [|split].
  3: { intros pre v post Hvs Hpre Hv Hroom.
       rewrite (push_bulk_func_touched _ _ _ _ _ _ Hs Hne Hvs).
       rewrite (bulk_loop_stops _ _ _ _ Hpre Hroom), Hv. reflexivity. }
  - intros Hnone. apply (push_bulk_func_not_integers _ _ _ _ Hs Hne Hnone).
  - intros vs w' Hvs.
    rewrite (push_bulk_func_touched _ _ _ _ _ _ Hs Hne Hvs).
    pose proof (bulk_loop_inv (array e) vs) as Hinv.
    destruct (fst (bulk_loop (array e) vs)) as [r|].
    + destruct Hinv as (pre & v & post & Heq & Hsnd & Hpre & Hr).
      intros [= Hresp <-].
      exists pre, v, post. rewrite Hsnd.
      destruct Hr as [[_ Hv]|[Hr _]].
      * repeat split; assumption.
      * rewrite Hr in Hresp. discriminate.
    + intros Hresp. discriminate Hresp.
Qed.

(** ** Arrays within their bounds *)

Lemma within_bounds_snoc (a : Array.t) (v : Z) :
  within_bounds a -> Array.fits v = true ->
  Array.len a + 1 <= MAX_STACK_SIZE ->
  within_bounds (a ++ [v]).
Proof.
  intros [_ Hfits] Hv Hlen. split.
  - rewrite array_len_snoc. exact Hlen.
  - apply Forall_app. split; [exact Hfits|]. constructor; [exact Hv|constructor].
Qed.

Lemma within_bounds_app_l (a b : Array.t) :
  within_bounds (a ++ b) -> within_bounds a.
Proof.
  intros [Hlen Hfits]. rewrite array_len_app in Hlen.
  pose proof (array_len_nonneg b). apply Forall_app in Hfits.
  split; [lia|apply Hfits].
Qed.

Lemma within_bounds_firstn (n : nat) (a : Array.t) :
  within_bounds a -> within_bounds (firstn n a).
Proof.
  intros H. rewrite <- (firstn_skipn n a) in H.
  apply (within_bounds_app_l _ _ H).
Qed.

Lemma bulk_loop_len (a : Array.t) (vs : list Z) :
  Array.len a <= MAX_STACK_SIZE ->
  Array.len (snd (bulk_loop a vs)) <= MAX_STACK_SIZE.
Proof.
  revert a. induction vs as [|v vs IH]; intros a Hlen; cbn [bulk_loop].
  - exact Hlen.
  - destruct (Array.fits v); [|exact Hlen].
    destruct (Array.len a + 1 >? MAX_STACK_SIZE) eqn:E; [exact Hlen|].
    apply IH. rewrite array_len_snoc. lia.
Qed.

Lemma bulk_loop_within (a : Array.t) (vs : list Z) :
  within_bounds a -> within_bounds (snd (bulk_loop a vs)).
Proof.
  intros [Hlen Hfits]. split; [apply (bulk_loop_len _ _ Hlen)|].
  pose proof (bulk_loop_inv a vs) as Hinv.
  destruct (fst (bulk_loop a vs)) as [r|].
  - destruct Hinv as (pre & v & post & _ & -> & Hpre & _).
    apply Forall_app. split; assumption.
  - destruct Hinv as [-> Hvs]. apply Forall_app. split; assumption.
Qed.

(** ** What every decorated view does to the entry it finds *)

Lemma push_found (req : request) (w : world) (stack_id : Z)
    (e : stack_entry) :
  int_arg "id" req = Some stack_id ->
  Dict.get stack_id (stacks w) = Some e ->
  push req w
  = match int_arg "value" req with
    | None => (Val NotAnInteger, touched stack_id (array e) w)
    | Some v =>
        if Array.fits v then
          if Array.len (array e) + 1 >? MAX_STACK_SIZE
          then (Val StackOverflow, touched stack_id (array e) w)
          else (Val Ok, touched stack_id (array e ++ [v]) w)
        else (Val ValueTooLarge, touched stack_id (array e) w)
    end.
Proof.
  intros Hid Hget. unfold push.
  rewrite (decorator_found _ _ _ _ _ Hid Hget).
  destruct (int_arg "value" req) as [v|] eqn:Hv.
  - apply (push_func_touched _ _ _ _ _ Hv).
  - unfold push_func. rewrite Hv. reflexivity.
Qed.

Lemma pop_found (req : request) (w : world) (stack_id : Z)
    (e : stack_entry) :
  int_arg "id" req = Some stack_id ->
  Dict.get stack_id (stacks w) = Some e ->
  (array e = [] /\ pop req w = (Val Underflow, touched stack_id [] w))
  \/ (exists a v,
        array e = a ++ [v]
        /\ pop req w = (Val (Response (str v) 200), touched stack_id a w)).
Proof.
  intros Hid Hget. unfold pop.
  rewrite (decorator_found _ _ _ _ _ Hid Hget).
  destruct (array e) as [|x a] eqn:Ha.
  - left. split; [reflexivity|]. apply pop_func_empty.
  - right. destruct (exists_last (l := x :: a)) as (a' & v & Hlast);
      [discriminate|].
    exists a', v. rewrite Hlast. split; [reflexivity|]. apply pop_func_snoc.
Qed.

Lemma peek_found (req : request) (w : world) (stack_id : Z)
    (e : stack_entry) :
  int_arg "id" req = Some stack_id ->
  Dict.get stack_id (stacks w) = Some e ->
  exists r, peek req w = (Val r, touched stack_id (array e) w).
Proof.
  intros Hid Hget. unfold peek.
  rewrite (decorator_found _ _ _ _ _ Hid Hget).
  destruct (array e) as [|x a] eqn:Ha.
  - eexists. apply peek_func_empty.
  - destruct (exists_last (l := x :: a)) as (a' & v & Hlast);
      [discriminate|].
    rewrite Hlast. eexists. apply peek_func_snoc.
Qed.

Lemma size_found (req : request) (w : world) (stack_id : Z)
    (e : stack_entry) :
  int_arg "id" req = Some stack_id ->
  Dict.get stack_id (stacks w) = Some e ->
  size req w
  = (Val (Response (str (Array.len (array e))) 200),
     touched stack_id (array e) w).
Proof.
  intros Hid Hget. unfold size.
  rewrite (decorator_found _ _ _ _ _ Hid Hget).
  apply size_func_touched.
Qed.

Lemma push_bulk_found (req : request) (w : world) (stack_id : Z)
    (e : stack_entry) :
  int_arg "id" req = Some stack_id ->
  Dict.get stack_id (stacks w) = Some e ->
  exists r a,
    push_bulk req w = (Val r, touched stack_id a w)
    /\ (within_bounds (array e) -> within_bounds a).
Proof.
  intros Hid Hget. unfold push_bulk.
  rewrite (decorator_found _ _ _ _ _ Hid Hget).
  destruct (args_get "values" req) as [s|] eqn:Hs.
  - destruct (string_dec s EmptyString) as [->|Hne].
    + exists MissingInput, (array e). split; [|tauto].
      apply push_bulk_func_missing. right. exact Hs.
    + destruct (ints (split_comma s)) as [vs|] eqn:Hvs.
      * rewrite (push_bulk_func_touched _ _ _ _ _ _ Hs Hne Hvs).
        eexists. eexists. split; [reflexivity|]. apply bulk_loop_within.
      * exists NotAllIntegers, (array e). split; [|tauto].
        apply (push_bulk_func_not_integers _ _ _ _ Hs Hne Hvs).
  - exists MissingInput, (array e). split; [|tauto].
    apply push_bulk_func_missing. left. exact Hs.
Qed.

Lemma pop_bulk_found (req : request) (w : world) (stack_id : Z)
    (e : stack_entry) :
  int_arg "id" req = Some stack_id ->
  Dict.get stack_id (stacks w) = Some e ->
  exists r n,
    pop_bulk req w = (Val r, touched stack_id (firstn n (array e)) w).
Proof.
  intros Hid Hget. unfold pop_bulk.
  rewrite (decorator_found _ _ _ _ _ Hid Hget).
  destruct (int_arg "count" req) as [count|] eqn:Hc.
  - destruct (Z_lt_le_dec (Array.len (array e)) count) as [Hlt|Hle].
    + rewrite (pop_bulk_func_underflow _ _ _ _ _ Hc Hlt).
      exists Underflow, (List.length (array e)). rewrite firstn_all.
      reflexivity.
    + rewrite (pop_bulk_func_enough _ _ _ _ _ Hc Hle). eauto.
  - unfold pop_bulk_func. rewrite Hc.
    exists BadCount, (List.length (array e)). rewrite firstn_all.
    reflexivity.
Qed.

Lemma destroy_found (req : request) (w : world) (stack_id : Z)
    (e : stack_entry) :
  int_arg "id" req = Some stack_id ->
  Dict.get stack_id (stacks w) = Some e ->
  exists d,
    Dict.del stack_id (stacks (touched stack_id (array e) w)) = Some d
    /\ destroy req w = (Val Ok, with_stacks d (touched stack_id (array e) w)).
Proof.
  intros Hid Hget. unfold destroy.
  rewrite (decorator_found _ _ _ _ _ Hid Hget).
  apply destroy_func_touched.
Qed.

(** Every decorated view but [destroy] answers (no exception escapes)
    and leaves a touched world, with an array within its bounds if it
    found one. *)
Lemma by_id_touches (ep : endpoint) (view : request -> M response)
    (req : request) (w : world) (stack_id : Z) (e : stack_entry) :
  view_of ep = Some view -> by_id ep = true -> ep <> ep_destroy ->
  int_arg "id" req = Some stack_id ->
  Dict.get stack_id (stacks w) = Some e ->
  exists r a,
    view req w = (Val r, touched stack_id a w)
    /\ (within_bounds (array e) -> within_bounds a).
Proof.
  intros Hview Hby Hnd Hid Hget.
  destruct ep; try discriminate Hby; try contradiction;
    injection Hview as <-.
  - rewrite (push_found _ _ _ _ Hid Hget).
    destruct (int_arg "value" req) as [v|]; [|eauto].
    destruct (Array.fits v) eqn:Hv; [|eauto].
    destruct (Array.len (array e) + 1 >? MAX_STACK_SIZE) eqn:E; [eauto|].
    eexists. eexists. split; [reflexivity|].
    intros Hb. apply (within_bounds_snoc _ _ Hb Hv). lia.
  - apply (push_bulk_found _ _ _ _ Hid Hget).
  - destruct (pop_found _ _ _ _ Hid Hget) as [[Hnil H]|(a & v & Hsnoc & H)].
    + rewrite H, Hnil. eauto.
    + rewrite H, Hsnoc. eexists. eexists. split; [reflexivity|].
      apply within_bounds_app_l.
  - destruct (pop_bulk_found _ _ _ _ Hid Hget) as (r & n & H).
    rewrite H. eexists. eexists. split; [reflexivity|].
    apply within_bounds_firstn.
  - rewrite (size_found _ _ _ _ Hid Hget). eauto.
  - destruct (peek_found _ _ _ _ Hid Hget) as [r H]. eauto.
Qed.

(** C9. Every view addressed by an identifier that is in the store sets
    the expiry of the entry to the reading of the clock plus one hour
    before its own body runs, whatever the view then answers: after
    [push], [push_bulk], [pop], [pop_bulk], [size] and [peek] the entry
    carries that expiry, and [destroy] deletes the entry it has just
    refreshed. *)
Theorem lookup_refreshes_expiry (ep : endpoint)
    (view : request -> M response) (req : request) (w : world)
    (stack_id : Z) (e : stack_entry) :
  view_of ep = Some view -> by_id ep = true ->
  int_arg "id" req = Some stack_id ->
  Dict.get stack_id (stacks w) = Some e ->
  (exists r, fst (view req w) = Val r)
  /\ (ep <> ep_destroy ->
        expiry_of stack_id (snd (view req w))
        = Some (clock (ticks w) + ONE_HOUR))
  /\ (ep = ep_destroy ->
        exists d,
          Dict.del stack_id (stacks (touched stack_id (array e) w)) = Some d
          /\ snd (view req w)
             = with_stacks d (touched stack_id (array e) w)).
Proof.
  intros Hview Hby Hid Hget.
  assert (Hcases : ep = ep_destroy \/ ep <> ep_destroy)
    by (destruct ep; (left; reflexivity) || (right; discriminate)).
  destruct Hcases as [->|Hnd].
  - injection Hview as <-.
    destruct (destroy_found _ _ _ _ Hid Hget) as (d & Hd & Hrun).
    rewrite Hrun. cbn [fst snd].
    split; [eauto|]. split; [contradiction|]. intros _. eauto.
  - destruct (by_id_touches _ _ _ _ _ _ Hview Hby Hnd Hid Hget)
      as (r & a & Hrun & _).
    rewrite Hrun. cbn [fst snd].
    split; [eauto|]. split; [|contradiction].
    intros _. apply expiry_of_touched.
Qed.

(** ** Sequences of calls on one stack *)

(** Pushes that are all answered "Ok" have appended their values in the
    order of the calls. *)
Lemma pushes_append (stack_id : Z) (pushes : list request) (vs : list Z) :
  Forall2 (fun r v => int_arg "id" r = Some stack_id
                      /\ int_arg "value" r = Some v) pushes vs ->
  forall (w w1 : world) (e : stack_entry),
    Dict.get stack_id (stacks w) = Some e ->
    call_all push pushes w = (Val (map (fun _ => Ok) pushes), w1) ->
    array_of stack_id w1 = Some (array e ++ vs).
Proof.
  induction 1 as [|req v pushes vs [Hid Hv] _ IH]; intros w w1 e Hget.
  - cbn [call_all map]. intros [= <-]. unfold array_of.
    rewrite Hget, app_nil_r. reflexivity.
  - cbn [call_all map]. unfold bind at 1.
    rewrite (push_found _ _ _ _ Hid Hget), Hv.
    destruct (Array.fits v);
      [destruct (Array.len (array e) + 1 >? MAX_STACK_SIZE)|].
    + unfold bind.
      destruct (call_all push pushes _) as [[rs|ex] w']; discriminate.
    + unfold bind.
      destruct (call_all push pushes (touched stack_id (array e ++ [v]) w))
        as [[rs|ex] w'] eqn:Hrest; [|discriminate].
      intros [= Hrs <-]. rewrite Hrs in Hrest.
      rewrite (IH _ _ _ (touched_get _ _ _) Hrest).
      cbn [array]. rewrite <- app_assoc. reflexivity.
    + unfold bind.
      destruct (call_all push pushes _) as [[rs|ex] w']; discriminate.
Qed.

(** Pops on an array that ends with [xs] in push order return [xs] in
    pop order and leave what was below. *)
Lemma pops_return (stack_id : Z) (pops : list request) :
  Forall (fun r => int_arg "id" r = Some stack_id) pops ->
  forall (xs : list Z) (base : Array.t) (w : world) (e : stack_entry),
    List.length pops = List.length xs ->
    Dict.get stack_id (stacks w) = Some e ->
    array e = base ++ rev xs ->
    exists w',
      call_all pop pops w
      = (Val (map (fun v => Response (str v) 200) xs), w')
      /\ array_of stack_id w' = Some base.
Proof.
  induction 1 as [|req pops Hid _ IH]; intros xs base w e Hlen Hget Ha.
  - destruct xs; [|discriminate]. cbn [rev] in Ha. rewrite app_nil_r in Ha.
    exists w. split; [reflexivity|].
    unfold array_of. rewrite Hget. cbn [option_map]. rewrite Ha. reflexivity.
  - destruct xs as [|x xs]; [discriminate|].
    cbn [rev] in Ha. rewrite app_assoc in Ha.
    destruct (pop_found _ _ _ _ Hid Hget) as [[Hnil _]|(a & v & Hsnoc & Hrun)].
    + rewrite Hnil in Ha. destruct (base ++ rev xs); discriminate.
    + rewrite Hsnoc in Ha. apply app_inj_tail in Ha. destruct Ha as [-> ->].
      destruct (IH xs base (touched stack_id (base ++ rev xs) w) _
                  (f_equal Nat.pred Hlen) (touched_get _ _ _) eq_refl)
        as (w' & Hrest & Hbase).
      exists w'. split; [|exact Hbase].
      cbn [call_all map].
      erewrite bind_val by exact Hrun.
      erewrite bind_val by exact Hrest. reflexivity.
Qed.

(** C5. After pushes on an empty stack that were all answered "Ok",
    [size] returns their number, as many pops return the pushed values
    from the last to the first, and one more pop answers "Stack
    underflow". *)
Theorem lifo (pushes pops : list request) (q_size q_pop : request)
    (vs : list Z) (w w1 : world) (stack_id : Z) (e : stack_entry) :
  Dict.get stack_id (stacks w) = Some e -> array e = [] ->
  Forall2 (fun r v => int_arg "id" r = Some stack_id
                      /\ int_arg "value" r = Some v) pushes vs ->
  call_all push pushes w = (Val (map (fun _ => Ok) pushes), w1) ->
  int_arg "id" q_size = Some stack_id ->
  Forall (fun r => int_arg "id" r = Some stack_id) pops ->
  List.length pops = List.length pushes ->
  int_arg "id" q_pop = Some stack_id ->
  exists w2 w3 w4,
    size q_size w1
    = (Val (Response (str (Z.of_nat (List.length pushes))) 200), w2)
    /\ call_all pop pops w2
       = (Val (map (fun v => Response (str v) 200) (rev vs)), w3)
    /\ pop q_pop w3 = (Val Underflow, w4).
Proof.
  intros Hget Hempty Hpushes Hok Hsize Hpops Hlen Hpop.
  pose proof (pushes_append _ _ _ Hpushes _ _ _ Hget Hok) as Harr.
  rewrite Hempty in Harr. cbn [app] in Harr.
  unfold array_of in Harr.
  destruct (Dict.get stack_id (stacks w1)) as [e1|] eqn:Hget1;
    [|discriminate].
  injection Harr as Harr.
  pose proof (Forall2_length Hpushes) as Hn.
  exists (touched stack_id (array e1) w1).
  destruct (pops_return _ _ Hpops (rev vs) [] (touched stack_id (array e1) w1)
              _ (eq_trans Hlen (eq_trans Hn (eq_sym (length_rev vs))))
              (touched_get _ _ _))
    as (w3 & Hrun & Hbase).
  { cbn [array app]. rewrite rev_involutive. exact Harr. }
  exists w3.
  unfold array_of in Hbase.
  destruct (Dict.get stack_id (stacks w3)) as [e3|] eqn:Hget3;
    [|discriminate].
  injection Hbase as Hbase.
  exists (touched stack_id [] w3).
  split; [|split].
  - rewrite (size_found _ _ _ _ Hsize Hget1), Harr.
    unfold Array.len. rewrite Hn. reflexivity.
  - exact Hrun.
  - destruct (pop_found _ _ _ _ Hpop Hget3) as [[_ H]|(a & v & Hsnoc & _)].
    + exact H.
    + rewrite Hbase in Hsnoc. destruct a; discriminate.
Qed.

(** ** The expiry sweep *)

Section DictAppend.
Context {V : Type}.
Implicit Types (d : Dict.t V) (k : Z) (v : V).

Lemma dict_get_app k d1 d2 :
  Dict.get k (d1 ++ d2)
  = match Dict.get k d1 with Some v => Some v | None => Dict.get k d2 end.
Proof.
  induction d1 as [|[k0 v0] d1 IH]; cbn [app Dict.get]; [reflexivity|].
  destruct (k =? k0); [reflexivity|exact IH].
Qed.

Lemma dict_contains_app k d1 d2 :
  Dict.contains k (d1 ++ d2) = Dict.contains k d1 || Dict.contains k d2.
Proof.
  unfold Dict.contains. rewrite dict_get_app.
  destruct (Dict.get k d1); reflexivity.
Qed.

Lemma dict_del_app k d1 d2 :
  Dict.contains k d1 = false ->
  Dict.del k (d1 ++ d2) = option_map (app d1) (Dict.del k d2).
Proof.
  unfold Dict.contains.
  induction d1 as [|[k0 v0] d1 IH]; cbn [app Dict.get Dict.del].
  - intros _. destruct (Dict.del k d2); reflexivity.
  - destruct (k =? k0); [discriminate|].
    intros H. rewrite (IH H). destruct (Dict.del k d2); reflexivity.
Qed.

Lemma dict_wf_drop_middle d1 k v d2 :
  Dict.wf (d1 ++ (k, v) :: d2) = true ->
  Dict.contains k d1 = false /\ Dict.wf (d1 ++ d2) = true.
Proof.
  induction d1 as [|[k0 v0] d1 IH]; cbn [app Dict.wf].
  - intros H. apply andb_true_iff in H. destruct H as [_ H].
    split; [reflexivity|exact H].
  - intros H. apply andb_true_iff in H. destruct H as [Hk0 Hwf].
    destruct (IH Hwf) as [Hk Hwf'].
    apply negb_true_iff in Hk0. rewrite dict_contains_app in Hk0.
    apply orb_false_iff in Hk0. destruct Hk0 as [Hk1 Hk2].
    unfold Dict.contains in Hk2. cbn [Dict.get] in Hk2.
    destruct (k0 =? k) eqn:E; [discriminate|].
    split.
    + unfold Dict.contains. cbn [Dict.get].
      rewrite Z.eqb_sym, E. exact Hk.
    + rewrite Hwf', andb_true_r. apply negb_true_iff.
      rewrite dict_contains_app, Hk1. exact Hk2.
Qed.

End DictAppend.

(** The loop of [remove_expired_stacks], from any point of the
    snapshot on: [kept] are the entries judged and kept so far, [todo]
    the ones still to judge. *)
Lemma sweep_loop (todo kept : list (Z * stack_entry)) (w : world) :
  stacks w = kept ++ todo ->
  Dict.wf (kept ++ todo) = true ->
  for_each todo (fun '(stack_id, stack) =>
    now <- time_time ;;
    if expiry stack <? now then stacks_delitem stack_id else ret tt) w
  = (Val tt, {| stacks := kept ++ swept (ticks w) todo;
                ticks := ticks w + List.length todo;
                draws := draws w |}).
Proof.
  revert kept w.
  induction todo as [|[k e] todo IH]; intros kept w Hst Hwf;
    cbn [for_each swept List.length].
  - rewrite Nat.add_0_r, <- Hst. destruct w; reflexivity.
  - unfold bind at 1. unfold bind at 1. unfold time_time at 1.
    destruct (expiry e <? clock (ticks w)) eqn:Hexp.
    + destruct (dict_wf_drop_middle _ _ _ _ Hwf) as [Hk Hwf'].
      unfold stacks_delitem. cbn [stacks].
      rewrite Hst, (dict_del_app _ _ _ Hk). cbn [Dict.del].
      rewrite Z.eqb_refl. cbn [option_map].
      rewrite (IH kept) by (try reflexivity; exact Hwf').
      unfold with_stacks. cbn [stacks ticks draws].
      rewrite Nat.add_succ_r. reflexivity.
    + unfold ret at 1.
      rewrite (IH (kept ++ [(k, e)]));
        cbn [stacks ticks draws]; rewrite <- ?app_assoc; cbn [app];
        try assumption.
      rewrite Nat.add_succ_r. reflexivity.
Qed.

Lemma remove_expired_stacks_swept (w : world) :
  Dict.wf (stacks w) = true ->
  remove_expired_stacks w
  = (Val tt, {| stacks := swept (ticks w) (stacks w);
                ticks := ticks w + List.length (stacks w);
                draws := draws w |}).
Proof.
  intros Hwf. unfold remove_expired_stacks, bind, app_stacks, Dict.items.
  apply (sweep_loop (stacks w) [] w eq_refl Hwf).
Qed.

(** Every entry of the snapshot is judged against one reading of the
    clock made during the sweep, and kept as it is unless its expiry is
    below that reading; the sweep adds no entry. *)
Lemma swept_get_at (k : Z) (entries : list (Z * stack_entry)) (t : nat) :
  Dict.wf entries = true ->
  match Dict.get k entries with
  | None => Dict.get k (swept t entries) = None
  | Some e =>
      exists i, (t <= i < t + List.length entries)%nat
                /\ Dict.get k (swept t entries)
                   = if expiry e <? clock i then None else Some e
  end.
Proof.
  revert t.
  induction entries as [|[k0 e0] entries IH]; intros t Hwf;
    cbn [swept Dict.get List.length]; [reflexivity|].
  cbn [Dict.wf] in Hwf. apply andb_true_iff in Hwf.
  destruct Hwf as [Hk0 Hwf]. apply negb_true_iff in Hk0.
  apply dict_contains_false in Hk0.
  specialize (IH (S t) Hwf).
  destruct (k =? k0) eqn:E.
  - apply Z.eqb_eq in E. subst k0. rewrite Hk0 in IH.
    exists t. split; [lia|].
    destruct (expiry e0 <? clock t); [exact IH|].
    cbn [Dict.get]. rewrite Z.eqb_refl. reflexivity.
  - destruct (Dict.get k entries) as [e|].
    + destruct IH as (i & Hi & Hget). exists i. split; [lia|].
      destruct (expiry e0 <? clock t); [exact Hget|].
      cbn [Dict.get]. rewrite E. exact Hget.
    + destruct (expiry e0 <? clock t); [exact IH|].
      cbn [Dict.get]. rewrite E. exact IH.
Qed.

(** On a clock that reads [now] throughout the sweep, an entry is kept
    exactly when its expiry is not below [now]. *)
Lemma swept_get (now : Z) (k : Z) (entries : list (Z * stack_entry))
    (t : nat) :
  (forall i, (t <= i < t + List.length entries)%nat -> clock i = now) ->
  Dict.wf entries = true ->
  Dict.get k (swept t entries)
  = match Dict.get k entries with
    | Some e => if expiry e <? now then None else Some e
    | None => None
    end.
Proof.
  intros Hclock Hwf. pose proof (swept_get_at k entries t Hwf) as Hat.
  destruct (Dict.get k entries) as [e|]; [|exact Hat].
  destruct Hat as (i & Hi & Hget). rewrite <- (Hclock i Hi). exact Hget.
Qed.

(** On a clock that moves between [lo] and [hi] while the sweep runs,
    every entry that expired before [lo] is deleted and every entry
    that does not expire before [hi] is kept. *)
Lemma swept_get_between (lo hi : Z) (k : Z)
    (entries : list (Z * stack_entry)) (t : nat) (e : stack_entry) :
  (forall i, (t <= i < t + List.length entries)%nat -> lo <= clock i <= hi) ->
  Dict.wf entries = true ->
  Dict.get k entries = Some e ->
  (expiry e < lo -> Dict.get k (swept t entries) = None)
  /\ (hi <= expiry e -> Dict.get k (swept t entries) = Some e).
Proof.
  intros Hclock Hwf Hk. pose proof (swept_get_at k entries t Hwf) as Hat.
  rewrite Hk in Hat. destruct Hat as (i & Hi & ->).
  specialize (Hclock i Hi).
  split; intros H; destruct (expiry e <? clock i) eqn:E;
    try reflexivity; lia.
Qed.

Lemma swept_get_inv (k : Z) (entries : list (Z * stack_entry)) (t : nat)
    (e : stack_entry) :
  Dict.wf entries = true ->
  Dict.get k (swept t entries) = Some e -> Dict.get k entries = Some e.
Proof.
  intros Hwf Hk. pose proof (swept_get_at k entries t Hwf) as Hat.
  destruct (Dict.get k entries) as [e'|]; [|congruence].
  destruct Hat as (i & _ & Hget). rewrite Hk in Hget.
  destruct (expiry e' <? clock i); congruence.
Qed.

Lemma swept_wf (entries : list (Z * stack_entry)) (t : nat) :
  Dict.wf entries = true -> Dict.wf (swept t entries) = true.
Proof.
  revert t. induction entries as [|[k0 e0] entries IH]; intros t Hwf;
    cbn [swept]; [reflexivity|].
  cbn [Dict.wf] in Hwf. apply andb_true_iff in Hwf.
  destruct Hwf as [Hk0 Hwf].
  destruct (expiry e0 <? clock t); [apply (IH _ Hwf)|].
  cbn [Dict.wf]. rewrite (IH _ Hwf), andb_true_r.
  apply negb_true_iff, dict_contains_false.
  apply negb_true_iff, dict_contains_false in Hk0.
  pose proof (swept_get_at k0 entries (S t) Hwf) as Hat.
  rewrite Hk0 in Hat. exact Hat.
Qed.

(** The entry at position [p] of the snapshot is judged against the
    reading number [t + p] of the clock. *)
Lemma swept_get_nth (entries : list (Z * stack_entry)) (t p : nat) (k : Z)
    (e : stack_entry) :
  Dict.wf entries = true ->
  nth_error entries p = Some (k, e) ->
  Dict.get k (swept t entries)
  = if expiry e <? clock (t + p) then None else Some e.
Proof.
  revert t p.
  induction entries as [|[k0 e0] entries IH]; intros t p Hwf Hnth.
  - destruct p; discriminate.
  - cbn [Dict.wf] in Hwf. apply andb_true_iff in Hwf.
    destruct Hwf as [Hk0 Hwf]. apply negb_true_iff in Hk0.
    apply dict_contains_false in Hk0.
    destruct p as [|p]; cbn [nth_error] in Hnth.
    + injection Hnth as -> ->. rewrite Nat.add_0_r. cbn [swept].
      destruct (expiry e <? clock t).
      * pose proof (swept_get_at k entries (S t) Hwf) as Hat.
        rewrite Hk0 in Hat. exact Hat.
      * cbn [Dict.get]. rewrite Z.eqb_refl. reflexivity.
    + assert (Hne : (k =? k0) = false).
      { destruct (k =? k0) eqn:E; [|reflexivity].
        apply Z.eqb_eq in E. subst k0.
        specialize (IH (S t) p Hwf Hnth).
        pose proof (swept_get_at k entries (S t) Hwf) as Hat.
        rewrite Hk0 in Hat. rewrite Hat in IH.
        assert (Hin : In (k, e) entries) by apply (nth_error_In _ _ Hnth).
        exfalso. clear - Hin Hk0.
        induction entries as [|[k1 e1] entries IHe]; [contradiction|].
        cbn [Dict.get] in Hk0. destruct Hin as [[= -> ->]|Hin].
        - rewrite Z.eqb_refl in Hk0. discriminate.
        - destruct (k =? k1); [discriminate|]. apply (IHe Hk0 Hin). }
      replace (t + S p)%nat with (S t + p)%nat by lia.
      rewrite <- (IH (S t) p Hwf Hnth). cbn [swept].
      destruct (expiry e0 <? clock t); [reflexivity|].
      cbn [Dict.get]. rewrite Hne. reflexivity.
Qed.

(** C7, as the code has it. The sweep that [before_request] runs ahead
    of the view of every request reads the clock once per entry, in the
    order of the store, and deletes exactly the entries whose expiry is
    below the reading taken for them. So, on a store with distinct keys
    and while the readings stay between [lo] and [hi]: every entry with
    an expiry below [lo] is deleted, every entry with an expiry of [hi]
    or later is kept, what is left has an expiry of [lo] or later, and
    every entry that is kept is as it was; none is added. With a clock
    that reads one time [now] throughout, [lo = hi = now]. *)
Theorem sweep_removes_expired (w : world) (lo hi : Z) :
  Dict.wf (stacks w) = true ->
  (forall i, (ticks w <= i < ticks w + List.length (stacks w))%nat ->
             lo <= clock i <= hi) ->
  exists w',
    before_request w = (Val tt, w')
    /\ (forall p k e,
          nth_error (Dict.items (stacks w)) p = Some (k, e) ->
          Dict.get k (stacks w')
          = if expiry e <? clock (ticks w + p) then None else Some e)
    /\ (forall k e, Dict.get k (stacks w) = Some e -> expiry e < lo ->
                    Dict.get k (stacks w') = None)
    /\ (forall k e, Dict.get k (stacks w) = Some e -> hi <= expiry e ->
                    Dict.get k (stacks w') = Some e)
    /\ (forall k e, Dict.get k (stacks w') = Some e ->
                    lo <= expiry e /\ Dict.get k (stacks w) = Some e)
    /\ (forall req view,
          view_of (rule req) = Some view ->
          handle_request req w
          = match view req w' with
            | (Val r, w'') => (Sent r, w'')
            | (Raise ex, w'') => (InternalServerError ex, w'')
            end).
Proof.
  intros Hwf Hclock.
  eexists. split; [apply (remove_expired_stacks_swept w Hwf)|].
  cbn [stacks]. split; [|split; [|split; [|split]]].
  - intros p k e Hnth. apply (swept_get_nth _ _ _ _ _ Hwf Hnth).
  - intros k e Hk Hlo.
    apply (proj1 (swept_get_between lo hi k _ _ e Hclock Hwf Hk) Hlo).
  - intros k e Hk Hhi.
    apply (proj2 (swept_get_between lo hi k _ _ e Hclock Hwf Hk) Hhi).
  - intros k e Hk.
    pose proof (swept_get_inv _ _ _ _ Hwf Hk) as Hbefore.
    split; [|exact Hbefore].
    pose proof (swept_get_at k (stacks w) (ticks w) Hwf) as Hat.
    rewrite Hbefore in Hat. destruct Hat as (i & Hi & Hget).
    rewrite Hk in Hget. specialize (Hclock i Hi).
    destruct (expiry e <? clock i) eqn:E; [discriminate|lia].
  - intros req view Hview. unfold handle_request, before_request.
    rewrite (remove_expired_stacks_swept w Hwf), Hview. reflexivity.
Qed.

(** ** The number of stacks *)

Lemma touched_len (stack_id : Z) (a : Array.t) (w : world) (e : stack_entry) :
  Dict.get stack_id (stacks w) = Some e ->
  Dict.len (stacks (touched stack_id a w)) = Dict.len (stacks w).
Proof.
  intros Hget. unfold touched. cbn [stacks].
  apply dict_len_set_present. apply dict_contains_get. eauto.
Qed.

(** The sweep never adds an entry, whatever the dictionary and the
    clock, also when it is cut short by an exception. *)
Lemma sweep_loop_len (todo : list (Z * stack_entry)) (w : world) :
  Dict.len
    (stacks
       (snd (for_each todo (fun '(stack_id, stack) =>
               now <- time_time ;;
               if expiry stack <? now then stacks_delitem stack_id
               else ret tt) w)))
  <= Dict.len (stacks w).
Proof.
  revert w. induction todo as [|[k e] todo IH]; intros w;
    cbn [for_each]; [cbn; lia|].
  unfold bind at 1. unfold bind at 1. unfold time_time at 1.
  destruct (expiry e <? clock (ticks w)).
  - unfold stacks_delitem. cbn [stacks].
    destruct (Dict.del k (stacks w)) as [d|] eqn:Hdel.
    + etransitivity; [apply IH|].
      unfold with_stacks. cbn [stacks].
      rewrite (dict_len_del _ _ _ Hdel). lia.
    + cbn [snd stacks]. lia.
  - unfold ret at 1. etransitivity; [apply IH|]. cbn [stacks]. lia.
Qed.

Lemma before_request_len (w : world) :
  Dict.len (stacks (snd (before_request w))) <= Dict.len (stacks w).
Proof.
  unfold before_request, remove_expired_stacks, bind, app_stacks, Dict.items.
  apply sweep_loop_len.
Qed.

Lemma create_run (w : world) :
  create w
  = if Dict.len (stacks w) >=? MAX_STACKS then (Val TooManyStacks, w)
    else (Val (Response (str (token (draws w))) 201),
          {| stacks := Dict.set (token (draws w))
                         {| array := [];
                            expiry := clock (ticks w) + ONE_HOUR |}
                         (stacks w);
             ticks := S (ticks w);
             draws := S (draws w) |}).
Proof.
  unfold create, bind, app_stacks.
  destruct (Dict.len (stacks w) >=? MAX_STACKS); reflexivity.
Qed.

(** No view but [create] adds an entry. *)
Lemma view_len (ep : endpoint) (view : request -> M response)
    (req : request) (w : world) :
  view_of ep = Some view -> ep <> ep_create ->
  Dict.len (stacks (snd (view req w))) <= Dict.len (stacks w).
Proof.
  intros Hview Hnc.
  destruct (by_id ep) eqn:Hby.
  - destruct (int_arg "id" req) as [stack_id|] eqn:Hid.
    + destruct (Dict.get stack_id (stacks w)) as [e|] eqn:Hget.
      * assert (Hcases : ep = ep_destroy \/ ep <> ep_destroy)
          by (destruct ep; (left; reflexivity) || (right; discriminate)).
        destruct Hcases as [->|Hnd].
        -- injection Hview as <-.
           destruct (destroy_found _ _ _ _ Hid Hget) as (d & Hd & ->).
           cbn [snd]. unfold with_stacks. cbn [stacks].
           rewrite (dict_len_del _ _ _ Hd), (touched_len _ _ _ _ Hget). lia.
        -- destruct (by_id_touches _ _ _ _ _ _ Hview Hby Hnd Hid Hget)
             as (r & a & -> & _).
           cbn [snd]. rewrite (touched_len _ _ _ _ Hget). lia.
      * assert (Hrun : view req w = (Val NotFound, w)).
        { destruct ep; try discriminate Hby; injection Hview as <-;
            apply (decorator_missing _ _ _ _ Hid Hget). }
        rewrite Hrun. cbn [snd]. lia.
    + assert (Hrun : view req w = (Val BadStackId, w)).
      { destruct ep; try discriminate Hby; injection Hview as <-;
          apply (decorator_bad_id _ _ _ Hid). }
      rewrite Hrun. cbn [snd]. lia.
  - destruct ep; try discriminate Hby; try discriminate Hview;
      try congruence; injection Hview as <-;
      unfold home, list_stacks, bind, app_stacks, ret; cbn [snd]; lia.
Qed.

Lemma create_len (w : world) :
  Dict.len (stacks w) <= MAX_STACKS ->
  Dict.len (stacks (snd (create w))) <= MAX_STACKS.
Proof.
  intros Hle. rewrite create_run.
  destruct (Dict.len (stacks w) >=? MAX_STACKS) eqn:E; [exact Hle|].
  cbn [snd stacks].
  pose proof (dict_len_set_le (token (draws w))
                {| array := []; expiry := clock (ticks w) + ONE_HOUR |}
                (stacks w)).
  lia.
Qed.

(** C8. A store of at most [MAX_STACKS] stacks stays so through every
    request. [create] answers "Maximum number of stacks reached" and
    changes nothing when the store already holds [MAX_STACKS] stacks;
    below that it stores an empty array that expires one hour after the
    reading of the clock under the identifier it drew, which it
    returns: one more entry when the identifier is new. No other view
    adds an entry, and neither does the sweep. *)
Theorem store_bound (req : request) (w : world) :
  Dict.len (stacks w) <= MAX_STACKS ->
  create w
  = (if Dict.len (stacks w) >=? MAX_STACKS then (Val TooManyStacks, w)
     else (Val (Response (str (token (draws w))) 201),
           {| stacks := Dict.set (token (draws w))
                          {| array := [];
                             expiry := clock (ticks w) + ONE_HOUR |}
                          (stacks w);
              ticks := S (ticks w);
              draws := S (draws w) |}))
  /\ (Dict.len (stacks w) < MAX_STACKS ->
      Dict.contains (token (draws w)) (stacks w) = false ->
      Dict.len (stacks (snd (create w))) = Dict.len (stacks w) + 1)
  /\ Dict.len (stacks (snd (create w))) <= MAX_STACKS
  /\ (forall view,
        view_of (rule req) = Some view -> rule req <> ep_create ->
        Dict.len (stacks (snd (view req w))) <= Dict.len (stacks w))
  /\ Dict.len (stacks (snd (before_request w))) <= Dict.len (stacks w)
  /\ Dict.len (stacks (snd (handle_request req w))) <= MAX_STACKS.
Proof.
  intros Hle. split; [apply create_run|]. split; [|split; [|split; [|split]]].
  - intros Hlt Hnew. rewrite create_run.
    destruct (Dict.len (stacks w) >=? MAX_STACKS) eqn:E; [lia|].
    cbn [snd stacks]. apply (dict_len_set_absent _ _ _ Hnew).
  - apply (create_len _ Hle).
  - intros view Hview Hnc. apply (view_len _ _ _ _ Hview Hnc).
  - apply before_request_len.
  - unfold handle_request.
    pose proof (before_request_len w) as Hsweep.
    destruct (before_request w) as [[[]|ex] w'] eqn:Hbefore;
      cbn [snd] in Hsweep; [|cbn [snd]; lia].
    destruct (view_of (rule req)) as [view|] eqn:Hview; [|cbn [snd]; lia].
    assert (Hafter : Dict.len (stacks (snd (view req w'))) <= MAX_STACKS).
    { assert (Hcases : rule req = ep_create \/ rule req <> ep_create)
        by (destruct (rule req); (left; reflexivity) || (right; discriminate)).
      destruct Hcases as [Hc|Hnc].
      - rewrite Hc in Hview. injection Hview as <-.
        apply create_len. lia.
      - pose proof (view_len _ _ req w' Hview Hnc). lia. }
    destruct (view req w') as [[r|ex] w'']; exact Hafter.
Qed.

(** ** Strings of integers *)

Lemma split_comma_plain (s : string) :
  has_comma s = false -> split_comma s = [s].
Proof.
  induction s as [|c s IH]; cbn [has_comma split_comma]; [reflexivity|].
  intros H. apply orb_false_iff in H. destruct H as [Hc Hs].
  rewrite Hc, (IH Hs). reflexivity.
Qed.

Lemma split_comma_app (s t : string) :
  has_comma s = false ->
  split_comma (s ++ String ","%char t)%string = s :: split_comma t.
Proof.
  induction s as [|c s IH]; cbn [has_comma split_comma String.append].
  - intros _. reflexivity.
  - intros H. apply orb_false_iff in H. destruct H as [Hc Hs].
    rewrite Hc, (IH Hs). reflexivity.
Qed.

Lemma join_comma_cons (s t : string) (ss : list string) :
  join_comma (s :: t :: ss)
  = (s ++ String ","%char (join_comma (t :: ss)))%string.
Proof. reflexivity. Qed.

Lemma split_join_comma (s : string) (ss : list string) :
  Forall (fun x => has_comma x = false) (s :: ss) ->
  split_comma (join_comma (s :: ss)) = s :: ss.
Proof.
  revert s. induction ss as [|t ss IH]; intros s Hall.
  - apply split_comma_plain. apply (Forall_inv Hall).
  - rewrite join_comma_cons.
    rewrite (split_comma_app _ _ (Forall_inv Hall)).
    rewrite (IH t (Forall_inv_tail Hall)). reflexivity.
Qed.

Lemma join_comma_nonempty (s : string) (ss : list string) :
  s <> EmptyString -> join_comma (s :: ss) <> EmptyString.
Proof.
  intros Hs. destruct ss as [|t ss].
  - exact Hs.
  - rewrite join_comma_cons. destruct s; [contradiction|discriminate].
Qed.

Lemma digits_no_comma (d : Decimal.uint) :
  has_comma (NilEmpty.string_of_uint d) = false.
Proof. induction d; cbn [NilEmpty.string_of_uint has_comma]; auto. Qed.

Lemma str_no_comma (n : Z) : has_comma (str n) = false.
Proof.
  unfold str. destruct (Z.to_int n) as [d|d];
    unfold NilZero.string_of_int, NilZero.string_of_uint;
    destruct d; try reflexivity;
    cbn [has_comma]; rewrite ?digits_no_comma; reflexivity.
Qed.

Lemma str_nonempty (n : Z) : str n <> EmptyString.
Proof.
  unfold str. destruct (Z.to_int n) as [d|d];
    unfold NilZero.string_of_int, NilZero.string_of_uint;
    destruct d; discriminate.
Qed.

Lemma ints_map_str (vs : list Z) :
  (forall n, int_of_str (str n) = Some n) ->
  ints (map str vs) = Some vs.
Proof.
  intros Hinv. induction vs as [|v vs IH]; cbn [map ints]; [reflexivity|].
  rewrite Hinv, IH. reflexivity.
Qed.

(** The body [pop_bulk] returns for a non-empty list of values is read
    back by [push_bulk] as that list. *)
Lemma values_read_back (vs : list Z) :
  (forall n, int_of_str (str n) = Some n) ->
  vs <> [] ->
  join_comma (map str vs) <> EmptyString
  /\ ints (split_comma (join_comma (map str vs))) = Some vs.
Proof.
  intros Hinv Hne. destruct vs as [|v vs]; [contradiction|].
  cbn [map]. split.
  - apply join_comma_nonempty, str_nonempty.
  - rewrite split_join_comma.
    + apply (ints_map_str (v :: vs) Hinv).
    + change (str v :: map str vs) with (map str (v :: vs)).
      apply Forall_map, Forall_forall. intros x _. apply str_no_comma.
Qed.

(** C6. After [pop_bulk] has removed [count] elements, [push_bulk] of
    the returned values in reverse order (printed by [str], joined by
    commas and read back by [int]) leaves the array it was before both
    calls, unless [push_bulk] answers "Stack overflow" or "Value is too
    large"; it answers neither when the array was within its bounds. *)
Theorem pop_bulk_push_bulk_round_trip (req1 req2 : request) (w : world)
    (stack_id : Z) (e : stack_entry) (count : Z) :
  (forall n, int_of_str (str n) = Some n) ->
  int_arg "id" req1 = Some stack_id ->
  int_arg "count" req1 = Some count ->
  Dict.get stack_id (stacks w) = Some e ->
  0 <= count <= Array.len (array e) ->
  let keep := (List.length (array e) - Z.to_nat count)%nat in
  let popped := rev (skipn keep (array e)) in
  let w1 := touched stack_id (firstn keep (array e)) w in
  int_arg "id" req2 = Some stack_id ->
  args_get "values" req2 = Some (join_comma (map str (rev popped))) ->
  pop_bulk req1 w = (Val (Response (join_comma (map str popped)) 200), w1)
  /\ (exists r, fst (push_bulk req2 w1) = Val r)
  /\ (fst (push_bulk req2 w1) <> Val StackOverflow ->
      fst (push_bulk req2 w1) <> Val ValueTooLarge ->
      array_of stack_id (snd (push_bulk req2 w1)) = Some (array e))
  /\ (Array.len (array e) <= MAX_STACK_SIZE ->
      Forall (fun v => Array.fits v = true) (array e) ->
      fst (push_bulk req2 w1)
      = Val (if count =? 0 then MissingInput else Ok)).
Proof.
  intros Hinv Hid1 Hcount Hget Hrange keep popped w1 Hid2 Hvalues.
  split.
  { unfold pop_bulk. rewrite (decorator_found _ _ _ _ _ Hid1 Hget).
    apply (pop_bulk_func_enough _ _ _ _ _ Hcount (proj2 Hrange)). }
  subst popped w1. rewrite rev_involutive in Hvalues.
  unfold push_bulk.
  rewrite (decorator_found _ _ _ _ _ Hid2 (touched_get _ _ _)).
  cbn [array].
  assert (Hskiplen : Array.len (skipn keep (array e)) = count).
  { unfold Array.len in *. rewrite length_skipn. subst keep. lia. }
  destruct (skipn keep (array e)) as [|v vs] eqn:Hskip.
  - rewrite (push_bulk_func_missing _ _ _ (or_intror Hvalues)).
    cbn [fst snd]. split; [eauto|]. split.
    + intros _ _. rewrite array_of_touched. f_equal.
      rewrite <- (firstn_skipn keep (array e)) at 2.
      rewrite Hskip, app_nil_r. reflexivity.
    + intros _ _. rewrite <- Hskiplen. reflexivity.
  - destruct (values_read_back (v :: vs) Hinv) as [Hne Hread];
      [discriminate|].
    rewrite (push_bulk_func_touched _ _ _ _ _ _ Hvalues Hne Hread).
    cbn [fst snd]. split; [eauto|]. split.
    + pose proof (bulk_loop_inv (firstn keep (array e)) (v :: vs)) as Hloop.
      destruct (fst (bulk_loop (firstn keep (array e)) (v :: vs))) as [r|].
      * destruct Hloop as (pre & x & post & _ & _ & _ & [[-> _]|[-> _]]);
          intros Hso Htl; [contradiction Htl|contradiction Hso]; reflexivity.
      * destruct Hloop as [-> _]. intros _ _.
        rewrite array_of_touched, <- Hskip, firstn_skipn. reflexivity.
    + intros Hcap Hfits.
      rewrite <- (firstn_skipn keep (array e)), Hskip in Hfits, Hcap.
      apply Forall_app in Hfits. rewrite array_len_app in Hcap.
      rewrite (bulk_loop_all _ _ (proj2 Hfits) Hcap). cbn [fst].
      assert (Hpos : count <> 0).
      { rewrite <- Hskiplen. unfold Array.len. cbn [List.length]. lia. }
      apply Z.eqb_neq in Hpos. rewrite Hpos. reflexivity.
Qed.

(** ** What every request keeps *)

Lemma store_ok_touched (stack_id : Z) (a : Array.t) (w : world)
    (e : stack_entry) :
  store_ok w -> Dict.get stack_id (stacks w) = Some e ->
  within_bounds a -> store_ok (touched stack_id a w).
Proof.
  intros (Hwf & Hlen & Hb) Hget Ha. split; [|split].
  - apply (dict_wf_set _ _ _ Hwf).
  - rewrite (touched_len _ _ _ _ Hget). exact Hlen.
  - intros k e' Hk. destruct (Z.eq_dec k stack_id) as [->|Hne].
    + rewrite touched_get in Hk. injection Hk as <-. exact Ha.
    + rewrite (touched_get_other _ _ _ _ Hne) in Hk. apply (Hb _ _ Hk).
Qed.

(** The sweep runs to its end on a store with distinct keys. *)
Lemma before_request_ok (w : world) :
  store_ok w ->
  exists w', before_request w = (Val tt, w') /\ store_ok w'.
Proof.
  intros (Hwf & Hlen & Hb).
  pose proof (before_request_len w) as Hle.
  unfold before_request in *.
  rewrite (remove_expired_stacks_swept w Hwf) in Hle.
  rewrite (remove_expired_stacks_swept w Hwf).
  cbn [snd stacks] in Hle.
  eexists. split; [reflexivity|]. unfold store_ok. cbn [stacks].
  split; [|split].
  - apply (swept_wf _ _ Hwf).
  - lia.
  - intros k e Hk. apply (Hb k e). apply (swept_get_inv _ _ _ _ Hwf Hk).
Qed.

(** No view lets an exception escape, and every view keeps the store
    as it should be. *)
Lemma view_ok (ep : endpoint) (view : request -> M response)
    (req : request) (w : world) :
  view_of ep = Some view -> store_ok w ->
  (exists r, fst (view req w) = Val r) /\ store_ok (snd (view req w)).
Proof.
  intros Hview Hok.
  destruct (by_id ep) eqn:Hby.
  - destruct (int_arg "id" req) as [stack_id|] eqn:Hid.
    + destruct (Dict.get stack_id (stacks w)) as [e|] eqn:Hget.
      * assert (Hcases : ep = ep_destroy \/ ep <> ep_destroy)
          by (destruct ep; (left; reflexivity) || (right; discriminate)).
        pose proof Hok as (Hwf & Hlen & Hb).
        assert (Hrefreshed : store_ok (touched stack_id (array e) w))
          by (apply (store_ok_touched _ _ _ e Hok Hget), (Hb _ _ Hget)).
        destruct Hcases as [->|Hnd].
        -- injection Hview as <-.
           destruct (destroy_found _ _ _ _ Hid Hget) as (d & Hd & ->).
           cbn [fst snd]. split; [eauto|].
           destruct Hrefreshed as (Hwf' & Hlen' & Hb').
           unfold with_stacks, store_ok. cbn [stacks].
           split; [apply (dict_wf_del _ _ _ Hwf' Hd)|]. split.
           ++ rewrite (dict_len_del _ _ _ Hd). lia.
           ++ intros k e' Hk. destruct (Z.eq_dec k stack_id) as [->|Hne].
              ** rewrite (dict_get_del_same _ _ _ Hwf' Hd) in Hk.
                 discriminate.
              ** rewrite (dict_get_del_other _ _ _ _ Hd Hne) in Hk.
                 apply (Hb' _ _ Hk).
        -- destruct (by_id_touches _ _ _ _ _ _ Hview Hby Hnd Hid Hget)
             as (r & a & -> & Ha).
           cbn [fst snd]. split; [eauto|].
           apply (store_ok_touched _ _ _ e Hok Hget), Ha, (Hb _ _ Hget).
      * assert (Hrun : view req w = (Val NotFound, w)).
        { destruct ep; try discriminate Hby; injection Hview as <-;
            apply (decorator_missing _ _ _ _ Hid Hget). }
        rewrite Hrun. cbn [fst snd]. split; [eauto|exact Hok].
    + assert (Hrun : view req w = (Val BadStackId, w)).
      { destruct ep; try discriminate Hby; injection Hview as <-;
          apply (decorator_bad_id _ _ _ Hid). }
      rewrite Hrun. cbn [fst snd]. split; [eauto|exact Hok].
  - destruct ep; try discriminate Hby; try discriminate Hview;
      injection Hview as <-.
    + unfold home, ret. cbn [fst snd]. split; [eauto|exact Hok].
    + pose proof Hok as (Hwf & Hlen & Hb).
      pose proof (create_len w Hlen) as Hlen'. rewrite create_run in *.
      destruct (Dict.len (stacks w) >=? MAX_STACKS);
        cbn [fst snd stacks] in *; (split; [eauto|]).
      * exact Hok.
      * split; [apply (dict_wf_set _ _ _ Hwf)|]. split; [exact Hlen'|].
        intros k e Hk. cbn [stacks] in Hk.
        destruct (Z.eq_dec k (token (draws w))) as [->|Hne].
        -- rewrite dict_get_set_same in Hk. injection Hk as <-.
           split; [discriminate|constructor].
        -- rewrite (dict_get_set_other _ _ _ _ Hne) in Hk.
           apply (Hb _ _ Hk).
    + unfold list_stacks, bind, app_stacks, ret. cbn [fst snd].
      split; [eauto|exact Hok].
Qed.

(** A store that is as it should be stays so through every request,
    and Flask never has to answer for an exception. The store of a
    process that has just started is empty. *)
Lemma handle_request_ok (req : request) (w : world) :
  store_ok w ->
  store_ok (snd (handle_request req w))
  /\ forall ex, fst (handle_request req w) <> InternalServerError ex.
Proof.
  intros Hok. unfold handle_request.
  destruct (before_request_ok w Hok) as (w' & -> & Hok').
  destruct (view_of (rule req)) as [view|] eqn:Hview.
  - destruct (view_ok _ _ req w' Hview Hok') as [[r Hr] Hafter].
    destruct (view req w') as [[r'|ex] w'']; cbn [fst snd] in *.
    + split; [exact Hafter|discriminate].
    + discriminate Hr.
  - cbn [fst snd]. split; [exact Hok'|discriminate].
Qed.

Lemma store_ok_start (t d : nat) :
  store_ok {| stacks := []; ticks := t; draws := d |}.
Proof.
  split; [reflexivity|]. split; [discriminate|]. intros k e [=].
Qed.

(** ** Requests in sequence on one stack *)








(** ** Further properties of the application *)

(** X1. From a store with distinct keys, at most [MAX_STACKS] stacks
    and every array within its bounds, any sequence of requests leaves
    such a store, and Flask never answers for an uncaught exception. *)
Theorem served_store_ok (reqs : list request) (w : world) :
  store_ok w ->
  store_ok (snd (serve handle_request reqs w))
  /\ Forall (fun o => forall ex, o <> InternalServerError ex)
            (fst (serve handle_request reqs w)).
Proof.
  revert w. induction reqs as [|req reqs IH]; intros w Hok; cbn [serve].
  - split; [exact Hok|constructor].
  - destruct (handle_request_ok req w Hok) as [Hok' Hno].
    destruct (handle_request req w) as [o w']. cbn [fst snd] in *.
    specialize (IH w' Hok').
    destruct (serve handle_request reqs w') as [os w'']. cbn [fst snd] in *.
    split; [apply IH|]. constructor; [exact Hno|apply IH].
Qed.

(** X2. A request that addresses a stack whose expiry is below every
    reading the clock gives during the sweep is answered "Stack not
    found", and the stack is gone from the store. *)
Theorem expired_stack_not_found (view : request -> M response)
    (req : request) (w : world) (stack_id : Z) (e : stack_entry) :
  view_of (rule req) = Some view -> by_id (rule req) = true ->
  int_arg "id" req = Some stack_id ->
  Dict.wf (stacks w) = true ->
  Dict.get stack_id (stacks w) = Some e ->
  (forall i, (ticks w <= i < ticks w + List.length (stacks w))%nat ->
             expiry e < clock i) ->
  fst (handle_request req w) = Sent NotFound
  /\ Dict.get stack_id (stacks (snd (handle_request req w))) = None.
Proof.
  intros Hview Hby Hid Hwf Hget Hlate.
  unfold handle_request, before_request.
  rewrite (remove_expired_stacks_swept w Hwf), Hview.
  pose proof (swept_get_at stack_id (stacks w) (ticks w) Hwf) as Hat.
  rewrite Hget in Hat. destruct Hat as (i & Hi & Hgone).
  specialize (Hlate i Hi).
  destruct (expiry e <? clock i) eqn:E; [|lia].
  assert (Hrun : forall w', Dict.get stack_id (stacks w') = None ->
                            view req w' = (Val NotFound, w')).
  { intros w' Hnone.
    destruct (rule req); try discriminate Hby; injection Hview as <-;
      apply (decorator_missing _ _ _ _ Hid Hnone). }
  rewrite Hrun by exact Hgone. cbn [fst snd stacks].
  split; [reflexivity|exact Hgone].
Qed.

(** A decorated view that finds the stack answers neither "Stack not
    found" nor "Stack ID must be an integer". *)
Lemma by_id_found_answer (ep : endpoint) (view : request -> M response)
    (req : request) (w : world) (stack_id : Z) (e : stack_entry) :
  view_of ep = Some view -> by_id ep = true ->
  int_arg "id" req = Some stack_id ->
  Dict.get stack_id (stacks w) = Some e ->
  fst (view req w) <> Val NotFound /\ fst (view req w) <> Val BadStackId.
Proof.
  intros Hview Hby Hid Hget.
  destruct ep; try discriminate Hby; injection Hview as <-.
  - rewrite (push_found _ _ _ _ Hid Hget).
    destruct (int_arg "value" req) as [v|];
      [destruct (Array.fits v);
       [destruct (Array.len (array e) + 1 >? MAX_STACK_SIZE)|]|];
      split; discriminate.
  - unfold push_bulk. rewrite (decorator_found _ _ _ _ _ Hid Hget).
    destruct (args_get "values" req) as [s|] eqn:Hs.
    + destruct (string_dec s EmptyString) as [->|Hne].
      * rewrite (push_bulk_func_missing _ _ _ (or_intror Hs)).
        split; discriminate.
      * destruct (ints (split_comma s)) as [vs|] eqn:Hvs.
        -- rewrite (push_bulk_func_touched _ _ _ _ _ _ Hs Hne Hvs).
           pose proof (bulk_loop_inv (array e) vs) as Hinv.
           destruct (fst (bulk_loop (array e) vs)) as [r'|].
           ++ destruct Hinv as (pre & v & post & _ & _ & _ & Hr).
              destruct Hr as [[-> _]|[-> _]]; split; discriminate.
           ++ split; discriminate.
        -- rewrite (push_bulk_func_not_integers _ _ _ _ Hs Hne Hvs).
           split; discriminate.
    + rewrite (push_bulk_func_missing _ _ _ (or_introl Hs)).
      split; discriminate.
  - destruct (pop_found _ _ _ _ Hid Hget) as [[_ H]|(a' & v & _ & H)];
      rewrite H; split; discriminate.
  - unfold pop_bulk. rewrite (decorator_found _ _ _ _ _ Hid Hget).
    destruct (int_arg "count" req) as [count|] eqn:Hc.
    + destruct (Z_lt_le_dec (Array.len (array e)) count) as [Hlt|Hle].
      * rewrite (pop_bulk_func_underflow _ _ _ _ _ Hc Hlt).
        split; discriminate.
      * rewrite (pop_bulk_func_enough _ _ _ _ _ Hc Hle).
        split; discriminate.
    + unfold pop_bulk_func. rewrite Hc. split; discriminate.
  - rewrite (size_found _ _ _ _ Hid Hget). split; discriminate.
  - unfold peek. rewrite (decorator_found _ _ _ _ _ Hid Hget).
    destruct (array e) as [|x l] eqn:Ha.
    + rewrite peek_func_empty. split; discriminate.
    + destruct (exists_last (l := x :: l)) as (a' & v & Hlast);
        [discriminate|].
      rewrite Hlast, peek_func_snoc. split; discriminate.
  - destruct (destroy_found _ _ _ _ Hid Hget) as (d & _ & ->).
    split; discriminate.
Qed.

(** X3. A request that addresses a stack which has not expired at any
    reading of the sweep finds it, and (unless it destroys it) leaves
    it with an expiry of one hour after the reading the clock gave
    right after the sweep: the hour starts anew at every touch. *)
Theorem live_stack_window_resets (view : request -> M response)
    (req : request) (w : world) (stack_id : Z) (e : stack_entry) :
  view_of (rule req) = Some view -> by_id (rule req) = true ->
  int_arg "id" req = Some stack_id ->
  Dict.wf (stacks w) = true ->
  Dict.get stack_id (stacks w) = Some e ->
  (forall i, (ticks w <= i < ticks w + List.length (stacks w))%nat ->
             clock i <= expiry e) ->
  (exists r, fst (handle_request req w) = Sent r
             /\ r <> NotFound /\ r <> BadStackId)
  /\ (rule req <> ep_destroy ->
      expiry_of stack_id (snd (handle_request req w))
      = Some (clock (ticks w + List.length (stacks w)) + ONE_HOUR))
  /\ (rule req = ep_destroy ->
      fst (handle_request req w) = Sent Ok
      /\ Dict.get stack_id (stacks (snd (handle_request req w))) = None).
Proof.
  intros Hview Hby Hid Hwf Hget Hlive.
  unfold handle_request, before_request.
  rewrite (remove_expired_stacks_swept w Hwf), Hview.
  pose proof (swept_get_at stack_id (stacks w) (ticks w) Hwf) as Hat.
  rewrite Hget in Hat. destruct Hat as (i & Hi & Hkept).
  specialize (Hlive i Hi).
  destruct (expiry e <? clock i) eqn:E; [lia|].
  set (w' := {| stacks := swept (ticks w) (stacks w);
                ticks := ticks w + List.length (stacks w);
                draws := draws w |}) in *.
  change (Dict.get stack_id (stacks w') = Some e) in Hkept.
  assert (Hwf' : Dict.wf (stacks w') = true) by apply (swept_wf _ _ Hwf).
  destruct (by_id_found_answer _ _ req w' _ _ Hview Hby Hid Hkept)
    as [Hfound Hgood].
  assert (Hcases : rule req = ep_destroy \/ rule req <> ep_destroy)
    by (destruct (rule req); (left; reflexivity) || (right; discriminate)).
  destruct Hcases as [Hd|Hnd].
  - rewrite Hd in Hview. injection Hview as <-.
    destruct (destroy_found _ _ _ _ Hid Hkept) as (d & Hdel & Hrun).
    rewrite Hrun in *. cbn [fst snd] in *.
    split; [exists Ok; repeat split; discriminate|].
    split; [intros Hne; contradiction|]. intros _.
    split; [reflexivity|].
    unfold with_stacks. cbn [stacks].
    apply (dict_get_del_same _ _ _ (dict_wf_set _ _ _ Hwf') Hdel).
  - destruct (by_id_touches _ _ req w' _ _ Hview Hby Hnd Hid Hkept)
      as (r & a & Hrun & _).
    rewrite Hrun in *. cbn [fst snd] in *.
    split; [exists r; repeat split; congruence|].
    split; [|intros Hd; contradiction].
    intros _. apply expiry_of_touched.
Qed.

Lemma by_id_bad_id (ep : endpoint) (view : request -> M response)
    (req : request) (w : world) :
  view_of ep = Some view -> by_id ep = true ->
  int_arg "id" req = None -> view req w = (Val BadStackId, w).
Proof.
  intros Hview Hby Hid.
  destruct ep; try discriminate Hby; injection Hview as <-;
    apply (decorator_bad_id _ _ _ Hid).
Qed.

Lemma by_id_missing (ep : endpoint) (view : request -> M response)
    (req : request) (w : world) (stack_id : Z) :
  view_of ep = Some view -> by_id ep = true ->
  int_arg "id" req = Some stack_id ->
  Dict.get stack_id (stacks w) = None ->
  view req w = (Val NotFound, w).
Proof.
  intros Hview Hby Hid Hget.
  destruct ep; try discriminate Hby; injection Hview as <-;
    apply (decorator_missing _ _ _ _ Hid Hget).
Qed.

(** X4. A decorated view whose [id] argument is missing or no integer
    answers "Stack ID must be an integer", and one whose identifier is
    not in the store answers "Stack not found"; in both cases nothing
    changes: no entry, no expiry, and the clock is not read. *)
Theorem failed_lookup_changes_nothing (ep : endpoint)
    (view : request -> M response) (req : request) (w : world) :
  view_of ep = Some view -> by_id ep = true ->
  (int_arg "id" req = None -> view req w = (Val BadStackId, w))
  /\ (forall stack_id,
        int_arg "id" req = Some stack_id ->
        Dict.get stack_id (stacks w) = None ->
        view req w = (Val NotFound, w)).
Proof.
  intros Hview Hby. split.
  - apply (by_id_bad_id _ _ _ _ Hview Hby).
  - intros stack_id. apply (by_id_missing _ _ _ _ _ Hview Hby).
Qed.

(** X5. Stacks are independent: a view leaves every entry other than
    the one it addresses as it was, array and expiry; [create] leaves
    every entry other than the one of the identifier it draws. *)
Theorem other_stacks_untouched (ep : endpoint)
    (view : request -> M response) (req : request) (w : world) (k : Z) :
  view_of ep = Some view ->
  (ep <> ep_create -> int_arg "id" req <> Some k ->
   Dict.get k (stacks (snd (view req w))) = Dict.get k (stacks w))
  /\ (ep = ep_create -> k <> token (draws w) ->
      Dict.get k (stacks (snd (view req w))) = Dict.get k (stacks w)).
Proof.
  intros Hview. split.
  - intros Hnc Hk. destruct (by_id ep) eqn:Hby.
    + destruct (int_arg "id" req) as [stack_id|] eqn:Hid.
      * assert (Hne : k <> stack_id) by congruence.
        destruct (Dict.get stack_id (stacks w)) as [e|] eqn:Hget.
        -- assert (Hcases : ep = ep_destroy \/ ep <> ep_destroy)
             by (destruct ep; (left; reflexivity) || (right; discriminate)).
           destruct Hcases as [->|Hnd].
           ++ injection Hview as <-.
              destruct (destroy_found _ _ _ _ Hid Hget) as (d & Hd & ->).
              cbn [snd]. unfold with_stacks. cbn [stacks].
              rewrite (dict_get_del_other _ _ _ _ Hd Hne).
              apply (touched_get_other _ _ _ _ Hne).
           ++ destruct (by_id_touches _ _ _ _ _ _ Hview Hby Hnd Hid Hget)
                as (r & a & -> & _).
              cbn [snd]. apply (touched_get_other _ _ _ _ Hne).
        -- rewrite (by_id_missing _ _ _ _ _ Hview Hby Hid Hget).
           reflexivity.
      * rewrite (by_id_bad_id _ _ _ _ Hview Hby Hid). reflexivity.
    + destruct ep; try discriminate Hby; try discriminate Hview;
        try congruence; injection Hview as <-; reflexivity.
  - intros -> Hk. injection Hview as <-. rewrite create_run.
    destruct (Dict.len (stacks w) >=? MAX_STACKS); cbn [snd stacks];
      [reflexivity|].
    apply (dict_get_set_other _ _ _ _ Hk).
Qed.

(** X6. [peek] answers with the last element of the array, or "Stack
    is empty", and leaves the array as it was; a pop right after it
    returns the value [peek] showed. *)
Theorem peek_reads_top (req q : request) (w : world) (stack_id : Z)
    (e : stack_entry) :
  int_arg "id" req = Some stack_id ->
  Dict.get stack_id (stacks w) = Some e ->
  int_arg "id" q = Some stack_id ->
  peek req w
  = (Val (match Array.top (array e) with
          | Some v => Response (str v) 200
          | None => Empty
          end),
     touched stack_id (array e) w)
  /\ (forall v, Array.top (array e) = Some v ->
                fst (pop q (snd (peek req w))) = Val (Response (str v) 200)).
Proof.
  intros Hid Hget Hq.
  assert (Hpeek : peek req w
                  = (Val (match Array.top (array e) with
                          | Some v => Response (str v) 200
                          | None => Empty
                          end),
                     touched stack_id (array e) w)).
  { unfold peek. rewrite (decorator_found _ _ _ _ _ Hid Hget).
    destruct (array e) as [|x l] eqn:Ha.
    - apply peek_func_empty.
    - destruct (exists_last (l := x :: l)) as (a & v & Hlast);
        [discriminate|].
      rewrite Hlast, peek_func_snoc, array_top_snoc. reflexivity. }
  split; [exact Hpeek|].
  intros v Htop. rewrite Hpeek. cbn [snd].
  destruct (pop_found _ _ _ _ Hq (touched_get stack_id (array e) w))
    as [[Hnil _]|(a & v' & Hsnoc & ->)]; cbn [array] in *.
  - rewrite Hnil in Htop. discriminate.
  - rewrite Hsnoc, array_top_snoc in Htop. injection Htop as ->.
    reflexivity.
Qed.

(** X7. [destroy] of a stack that is in the store answers "Ok" and
    removes exactly that entry: the identifier is no longer found,
    there is one entry less, the other entries are as they were, and a
    second [destroy] of the same identifier answers "Stack not
    found". *)
Theorem destroy_removes (req : request) (w : world) (stack_id : Z)
    (e : stack_entry) :
  int_arg "id" req = Some stack_id ->
  Dict.wf (stacks w) = true ->
  Dict.get stack_id (stacks w) = Some e ->
  fst (destroy req w) = Val Ok
  /\ Dict.get stack_id (stacks (snd (destroy req w))) = None
  /\ Dict.len (stacks (snd (destroy req w))) = Dict.len (stacks w) - 1
  /\ (forall k, k <> stack_id ->
                Dict.get k (stacks (snd (destroy req w)))
                = Dict.get k (stacks w))
  /\ destroy req (snd (destroy req w))
     = (Val NotFound, snd (destroy req w)).
Proof.
  intros Hid Hwf Hget.
  destruct (destroy_found _ _ _ _ Hid Hget) as (d & Hd & ->).
  cbn [fst snd]. unfold with_stacks at 1 2 3. cbn [stacks].
  assert (Hwf' : Dict.wf (stacks (touched stack_id (array e) w)) = true)
    by apply (dict_wf_set _ _ _ Hwf).
  assert (Hgone : Dict.get stack_id d = None)
    by apply (dict_get_del_same _ _ _ Hwf' Hd).
  split; [reflexivity|]. split; [exact Hgone|]. split; [|split].
  - rewrite (dict_len_del _ _ _ Hd), (touched_len _ _ _ _ Hget).
    reflexivity.
  - intros k Hne. rewrite (dict_get_del_other _ _ _ _ Hd Hne).
    apply (touched_get_other _ _ _ _ Hne).
  - apply (decorator_missing _ _ _ _ Hid). exact Hgone.
Qed.

Lemma dict_del_set_fresh {V : Type} (k : Z) (v : V) (d : Dict.t V) :
  Dict.contains k d = false -> Dict.del k (Dict.set k v d) = Some d.
Proof.
  unfold Dict.contains.
  induction d as [|[k0 v0] d IH]; cbn [Dict.get Dict.set Dict.del].
  - intros _. rewrite Z.eqb_refl. reflexivity.
  - destruct (k =? k0) eqn:E; [discriminate|].
    intros H. cbn [Dict.del]. rewrite E, (IH H). reflexivity.
Qed.

(** X8. The identifier [create] returns addresses an empty stack at
    once: [size] answers 0, [pop] "Stack underflow" and [peek] "Stack
    is empty"; and when the identifier was new, [destroy] of it gives
    back the store as it was before [create]. *)
Theorem created_stack_is_usable (q : request) (w : world) :
  (forall n, int_of_str (str n) = Some n) ->
  Dict.len (stacks w) < MAX_STACKS ->
  args_get "id" q = Some (str (token (draws w))) ->
  fst (create w) = Val (Response (str (token (draws w))) 201)
  /\ fst (size q (snd (create w))) = Val (Response (str 0) 200)
  /\ fst (pop q (snd (create w))) = Val Underflow
  /\ fst (peek q (snd (create w))) = Val Empty
  /\ (Dict.contains (token (draws w)) (stacks w) = false ->
      fst (destroy q (snd (create w))) = Val Ok
      /\ stacks (snd (destroy q (snd (create w)))) = stacks w).
Proof.
  intros Hinv Hroom Hq.
  assert (Hid : int_arg "id" q = Some (token (draws w)))
    by (unfold int_arg; rewrite Hq; apply Hinv).
  rewrite create_run.
  destruct (Dict.len (stacks w) >=? MAX_STACKS) eqn:E; [lia|].
  cbn [fst snd].
  set (w1 := {| stacks := Dict.set (token (draws w))
                            {| array := [];
                               expiry := clock (ticks w) + ONE_HOUR |}
                            (stacks w);
                ticks := S (ticks w); draws := S (draws w) |}).
  assert (Hget : Dict.get (token (draws w)) (stacks w1)
                 = Some {| array := [];
                           expiry := clock (ticks w) + ONE_HOUR |})
    by apply dict_get_set_same.
  split; [reflexivity|]. split; [|split; [|split]].
  - rewrite (size_found _ _ _ _ Hid Hget). reflexivity.
  - destruct (pop_found _ _ _ _ Hid Hget) as [[_ ->]|(a & v & Hsnoc & _)];
      [reflexivity|].
    cbn [array] in Hsnoc. destruct a; discriminate.
  - unfold peek. rewrite (decorator_found _ _ _ _ _ Hid Hget).
    cbn [array]. rewrite peek_func_empty. reflexivity.
  - intros Hnew.
    destruct (destroy_found _ _ _ _ Hid Hget) as (d & Hd & ->).
    cbn [fst snd]. split; [reflexivity|].
    unfold with_stacks. cbn [stacks].
    unfold touched, w1 in Hd. cbn [stacks] in Hd.
    rewrite dict_set_set, (dict_del_set_fresh _ _ _ Hnew) in Hd.
    congruence.
Qed.

(** Creates in a row, as long as there is room: each one answers with
    the identifier it drew, and when the identifiers are new and
    distinct each one adds an entry. *)
Lemma creates_run (first : nat) (n : nat) :
  forall w : world,
    Dict.len (stacks w) + Z.of_nat n <= MAX_STACKS ->
    exists w',
      repeat_collect n create w
      = (Val (map (fun i => Response (str (token i)) 201)
                  (seq (draws w) n)), w')
      /\ draws w' = (draws w + n)%nat
      /\ ((first <= draws w)%nat ->
          (forall i j, (first <= i < j)%nat -> (j < draws w + n)%nat ->
                       token i <> token j) ->
          (forall k, Dict.contains k (stacks w) = true ->
                     exists i, (first <= i < draws w)%nat /\ k = token i) ->
          Dict.len (stacks w') = Dict.len (stacks w) + Z.of_nat n
          /\ (forall k, Dict.contains k (stacks w') = true ->
                        exists i, (first <= i < draws w + n)%nat
                                  /\ k = token i)).
Proof.
  induction n as [|n IH]; intros w Hroom.
  - exists w. cbn [repeat_collect seq map]. split; [reflexivity|].
    split; [lia|]. intros _ _ Hkeys. split; [lia|].
    intros k Hk. destruct (Hkeys k Hk) as (i & Hi & ->).
    exists i. split; [lia|reflexivity].
  - cbn [repeat_collect seq map]. unfold bind at 1. rewrite create_run.
    destruct (Dict.len (stacks w) >=? MAX_STACKS) eqn:E; [lia|].
    set (w1 := {| stacks := Dict.set (token (draws w))
                              {| array := [];
                                 expiry := clock (ticks w) + ONE_HOUR |}
                              (stacks w);
                  ticks := S (ticks w); draws := S (draws w) |}).
    pose proof (dict_len_set_le (token (draws w))
                  {| array := []; expiry := clock (ticks w) + ONE_HOUR |}
                  (stacks w)) as Hlen1.
    destruct (IH w1) as (w' & Hrun & Hdraws & Hexact).
    { cbn [stacks w1]. lia. }
    exists w'. unfold bind. rewrite Hrun. cbn [draws w1] in *.
    split; [reflexivity|]. split; [lia|].
    intros Hfirst Hdistinct Hkeys.
    assert (Hnew : Dict.contains (token (draws w)) (stacks w) = false).
    { destruct (Dict.contains (token (draws w)) (stacks w)) eqn:Hc;
        [|reflexivity].
      destruct (Hkeys _ Hc) as (i & Hi & Heq).
      exfalso. apply (Hdistinct i (draws w)); [lia|lia|].
      symmetry. exact Heq. }
    destruct Hexact as [Hlen Hkeys'].
    + lia.
    + intros i j Hij Hj. apply Hdistinct; lia.
    + intros k Hk. cbn [stacks w1] in Hk.
      destruct (Z.eq_dec k (token (draws w))) as [->|Hne].
      * exists (draws w). split; [lia|reflexivity].
      * unfold Dict.contains in Hk.
        rewrite (dict_get_set_other _ _ _ _ Hne) in Hk.
        destruct (Hkeys k Hk) as (i & Hi & ->).
        exists i. split; [lia|reflexivity].
    + split.
      * rewrite Hlen. cbn [stacks w1].
        rewrite (dict_len_set_absent _ _ _ Hnew). lia.
      * intros k Hk. destruct (Hkeys' k Hk) as (i & Hi & ->).
        exists i. split; [lia|reflexivity].
Qed.

(** X9. From an empty store, [MAX_STACKS] calls of [create] in a row
    all answer 201 with the identifier drawn; when the identifiers
    drawn are pairwise distinct the store then holds [MAX_STACKS]
    stacks and one more [create] answers "Maximum number of stacks
    reached" and changes nothing. *)
Theorem creates_until_full (w : world) :
  stacks w = [] ->
  exists w',
    repeat_collect (Z.to_nat MAX_STACKS) create w
    = (Val (map (fun i => Response (str (token i)) 201)
                (seq (draws w) (Z.to_nat MAX_STACKS))), w')
    /\ ((forall i j, (draws w <= i < j)%nat ->
                     (j < draws w + Z.to_nat MAX_STACKS)%nat ->
                     token i <> token j) ->
        Dict.len (stacks w') = MAX_STACKS
        /\ create w' = (Val TooManyStacks, w')).
Proof.
  intros Hempty.
  destruct (creates_run (draws w) (Z.to_nat MAX_STACKS) w)
    as (w' & Hrun & _ & Hexact).
  { rewrite Hempty. cbn. discriminate. }
  exists w'. split; [exact Hrun|].
  intros Hdistinct.
  destruct Hexact as [Hlen _].
  - lia.
  - exact Hdistinct.
  - intros k Hk. rewrite Hempty in Hk. discriminate.
  - rewrite Hempty in Hlen. change (Dict.len []) with 0 in Hlen.
    rewrite Z2Nat.id in Hlen by discriminate.
    split; [lia|].
    rewrite create_run. rewrite Hlen. reflexivity.
Qed.

(** X10. On a full store [create] is refused; after [destroy] of one of
    its stacks [create] succeeds again. *)
Theorem destroy_makes_room (req : request) (w : world) (stack_id : Z)
    (e : stack_entry) :
  int_arg "id" req = Some stack_id ->
  Dict.get stack_id (stacks w) = Some e ->
  Dict.len (stacks w) = MAX_STACKS ->
  create w = (Val TooManyStacks, w)
  /\ fst (destroy req w) = Val Ok
  /\ fst (create (snd (destroy req w)))
     = Val (Response (str (token (draws w))) 201).
Proof.
  intros Hid Hget Hfull. split; [|split].
  - rewrite create_run, Hfull. reflexivity.
  - destruct (destroy_found _ _ _ _ Hid Hget) as (d & _ & ->). reflexivity.
  - destruct (destroy_found _ _ _ _ Hid Hget) as (d & Hd & ->).
    cbn [snd]. rewrite create_run. unfold with_stacks. cbn [stacks draws].
    rewrite (dict_len_del _ _ _ Hd), (touched_len _ _ _ _ Hget), Hfull.
    reflexivity.
Qed.

(** X11. An argument that is refused before anything is appended or
    popped leaves the array as it was: a [value] that is no integer or
    does not fit a signed 64-bit slot for [push], missing or empty
    [values] for [push_bulk], a [count] that is no integer for
    [pop_bulk]. *)
Theorem rejected_input_keeps_array (req : request) (w : world)
    (stack_id : Z) (e : stack_entry) :
  int_arg "id" req = Some stack_id ->
  Dict.get stack_id (stacks w) = Some e ->
  (int_arg "value" req = None ->
   push req w = (Val NotAnInteger, touched stack_id (array e) w))
  /\ (forall v, int_arg "value" req = Some v -> Array.fits v = false ->
                push req w
                = (Val ValueTooLarge, touched stack_id (array e) w))
  /\ (args_get "values" req = None
      \/ args_get "values" req = Some EmptyString ->
      push_bulk req w = (Val MissingInput, touched stack_id (array e) w))
  /\ (int_arg "count" req = None ->
      pop_bulk req w = (Val BadCount, touched stack_id (array e) w)).
Proof.
  intros Hid Hget. split; [|split; [|split]].
  - intros Hv. rewrite (push_found _ _ _ _ Hid Hget), Hv. reflexivity.
  - intros v Hv Hfit.
    rewrite (push_found _ _ _ _ Hid Hget), Hv, Hfit. reflexivity.
  - intros Hs. unfold push_bulk.
    rewrite (decorator_found _ _ _ _ _ Hid Hget).
    apply (push_bulk_func_missing _ _ _ Hs).
  - intros Hc. unfold pop_bulk.
    rewrite (decorator_found _ _ _ _ _ Hid Hget).
    unfold pop_bulk_func. rewrite Hc. reflexivity.
Qed.

(** The loop of [push_bulk] runs to its end exactly when every value
    fits and there is room for all of them. *)
Lemma bulk_loop_none_iff (a : Array.t) (vs : list Z) :
  Array.len a <= MAX_STACK_SIZE ->
  fst (bulk_loop a vs) = None
  <-> Forall (fun v => Array.fits v = true) vs
      /\ Array.len a + Array.len vs <= MAX_STACK_SIZE.
Proof.
  intros Hlen. split.
  - intros Hnone. pose proof (bulk_loop_inv a vs) as Hinv.
    pose proof (bulk_loop_len a vs Hlen) as Hafter.
    rewrite Hnone in Hinv. destruct Hinv as [Hsnd Hfits].
    rewrite Hsnd, array_len_app in Hafter. split; assumption.
  - intros [Hfits Hroom]. rewrite (bulk_loop_all _ _ Hfits Hroom).
    reflexivity.
Qed.

(** X12. [push_bulk] answers "Ok" exactly when every value of the batch
    fits a signed 64-bit slot and the stack has room for all of them;
    the array is then the old one followed by the batch in order. *)
Theorem push_bulk_ok_iff (req : request) (w : world) (stack_id : Z)
    (e : stack_entry) (s : string) (vs : list Z) :
  int_arg "id" req = Some stack_id ->
  Dict.get stack_id (stacks w) = Some e ->
  args_get "values" req = Some s -> s <> EmptyString ->
  ints (split_comma s) = Some vs ->
  Array.len (array e) <= MAX_STACK_SIZE ->
  (fst (push_bulk req w) = Val Ok
   <-> Forall (fun v => Array.fits v = true) vs
       /\ Array.len (array e) + Array.len vs <= MAX_STACK_SIZE)
  /\ (fst (push_bulk req w) = Val Ok ->
      snd (push_bulk req w) = touched stack_id (array e ++ vs) w).
Proof.
  intros Hid Hget Hs Hne Hvs Hlen.
  unfold push_bulk. rewrite (decorator_found _ _ _ _ _ Hid Hget).
  rewrite (push_bulk_func_touched _ _ _ _ _ _ Hs Hne Hvs). cbn [fst snd].
  pose proof (bulk_loop_none_iff (array e) vs Hlen) as Hiff.
  pose proof (bulk_loop_inv (array e) vs) as Hinv.
  destruct (fst (bulk_loop (array e) vs)) as [r|].
  - destruct Hinv as (pre & v & post & _ & _ & _ & Hr).
    assert (Hnot : Val r <> Val Ok)
      by (destruct Hr as [[-> _]|[-> _]]; discriminate).
    split; [|intros H; contradiction].
    split; [intros H; contradiction|].
    intros H. apply Hiff in H. discriminate.
  - destruct Hinv as [-> _]. split; [|reflexivity].
    split; [intros _; apply Hiff; reflexivity|reflexivity].
Qed.

(** The loop runs to its end exactly when the pushes, one request per
    value, are all answered "Ok"; the arrays agree. *)
Lemma pushes_as_loop (stack_id : Z) (pushes : list request) (vs : list Z) :
  Forall2 (fun r v => int_arg "id" r = Some stack_id
                      /\ int_arg "value" r = Some v) pushes vs ->
  forall (w : world) (e : stack_entry),
    Dict.get stack_id (stacks w) = Some e ->
    (fst (bulk_loop (array e) vs) = None ->
     exists w1,
       call_all push pushes w = (Val (map (fun _ => Ok) pushes), w1)
       /\ array_of stack_id w1 = Some (snd (bulk_loop (array e) vs)))
    /\ (fst (call_all push pushes w) = Val (map (fun _ => Ok) pushes) ->
        fst (bulk_loop (array e) vs) = None).
Proof.
  induction 1 as [|req v pushes vs [Hid Hv] _ IH]; intros w e Hget.
  - cbn [call_all bulk_loop map fst snd]. split.
    + intros _. exists w. split; [reflexivity|].
      unfold array_of. rewrite Hget. reflexivity.
    + reflexivity.
  - cbn [call_all bulk_loop map]. unfold bind at 1 3.
    rewrite (push_found _ _ _ _ Hid Hget), Hv.
    destruct (Array.fits v);
      [destruct (Array.len (array e) + 1 >? MAX_STACK_SIZE)|].
    + split; [discriminate|]. unfold bind.
      destruct (call_all push pushes _) as [[rs|ex] w']; discriminate.
    + destruct (IH _ _ (touched_get stack_id (array e ++ [v]) w))
        as [Hthere Hback]. cbn [array] in *.
      split.
      * intros Hnone. destruct (Hthere Hnone) as (w1 & Hrun & Harr).
        exists w1. unfold bind. rewrite Hrun. split; [reflexivity|exact Harr].
      * unfold bind.
        destruct (call_all push pushes
                    (touched stack_id (array e ++ [v]) w))
          as [[rs|ex] w'] eqn:Hrest; [|discriminate].
        cbn [fst] in *. intros [= Hrs]. apply Hback. rewrite Hrs.
        reflexivity.
    + split; [discriminate|]. unfold bind.
      destruct (call_all push pushes _) as [[rs|ex] w']; discriminate.
Qed.

(** X13. [push_bulk] of a batch answers "Ok" exactly when [push] of its
    values one request at a time is answered "Ok" every time, and both
    leave the same array. *)
Theorem push_bulk_as_pushes (req : request) (pushes : list request)
    (w : world) (stack_id : Z) (e : stack_entry) (s : string)
    (vs : list Z) :
  int_arg "id" req = Some stack_id ->
  Dict.get stack_id (stacks w) = Some e ->
  args_get "values" req = Some s -> s <> EmptyString ->
  ints (split_comma s) = Some vs ->
  Forall2 (fun r v => int_arg "id" r = Some stack_id
                      /\ int_arg "value" r = Some v) pushes vs ->
  (fst (push_bulk req w) = Val Ok
   <-> fst (call_all push pushes w) = Val (map (fun _ => Ok) pushes))
  /\ (fst (push_bulk req w) = Val Ok ->
      array_of stack_id (snd (call_all push pushes w))
      = array_of stack_id (snd (push_bulk req w))).
Proof.
  intros Hid Hget Hs Hne Hvs Hpushes.
  destruct (pushes_as_loop _ _ _ Hpushes w e Hget) as [Hthere Hback].
  unfold push_bulk. rewrite (decorator_found _ _ _ _ _ Hid Hget).
  rewrite (push_bulk_func_touched _ _ _ _ _ _ Hs Hne Hvs). cbn [fst snd].
  pose proof (bulk_loop_inv (array e) vs) as Hinv.
  destruct (fst (bulk_loop (array e) vs)) as [r|] eqn:Hloop.
  - destruct Hinv as (pre & v & post & _ & _ & _ & Hr).
    assert (Hnot : Val r <> Val Ok)
      by (destruct Hr as [[-> _]|[-> _]]; discriminate).
    split; [|intros H; contradiction].
    split; [intros H; contradiction|].
    intros H. apply Hback in H. discriminate.
  - destruct (Hthere eq_refl) as (w1 & Hrun & Harr).
    rewrite Hrun. cbn [fst snd]. split.
    + split; reflexivity.
    + intros _. rewrite Harr, array_of_touched. reflexivity.
Qed.

(** X14. [pop_bulk] with a count between 0 and the length returns what
    as many single pops return, joined by commas, and leaves the array
    they leave. *)
Theorem pop_bulk_as_pops (req : request) (pops : list request) (w : world)
    (stack_id : Z) (e : stack_entry) (count : Z) :
  int_arg "id" req = Some stack_id ->
  int_arg "count" req = Some count ->
  Dict.get stack_id (stacks w) = Some e ->
  0 <= count <= Array.len (array e) ->
  Forall (fun r => int_arg "id" r = Some stack_id) pops ->
  List.length pops = Z.to_nat count ->
  exists bodies,
    fst (call_all pop pops w) = Val (map (fun b => Response b 200) bodies)
    /\ fst (pop_bulk req w) = Val (Response (join_comma bodies) 200)
    /\ array_of stack_id (snd (call_all pop pops w))
       = array_of stack_id (snd (pop_bulk req w)).
Proof.
  intros Hid Hcount Hget Hrange Hpops Hlen.
  set (keep := (List.length (array e) - Z.to_nat count)%nat).
  destruct (pops_return _ _ Hpops (rev (skipn keep (array e)))
              (firstn keep (array e)) w e)
    as (w1 & Hrun & Harr).
  { rewrite Hlen, length_rev, length_skipn. unfold Array.len in Hrange.
    subst keep. lia. }
  { exact Hget. }
  { rewrite rev_involutive, firstn_skipn. reflexivity. }
  exists (map str (rev (skipn keep (array e)))).
  unfold pop_bulk. rewrite (decorator_found _ _ _ _ _ Hid Hget).
  rewrite (pop_bulk_func_enough _ _ _ _ _ Hcount (proj2 Hrange)).
  rewrite Hrun. cbn [fst snd]. fold keep.
  rewrite map_map, Harr, array_of_touched. repeat split.
Qed.

(** X15. A push that is answered "Ok" followed by a pop gives back the
    pushed value and the array as it was before the push. *)
Theorem push_then_pop (req q : request) (w : world) (stack_id : Z)
    (e : stack_entry) (v : Z) :
  int_arg "id" req = Some stack_id ->
  Dict.get stack_id (stacks w) = Some e ->
  int_arg "value" req = Some v ->
  int_arg "id" q = Some stack_id ->
  fst (push req w) = Val Ok ->
  fst (pop q (snd (push req w))) = Val (Response (str v) 200)
  /\ array_of stack_id (snd (pop q (snd (push req w)))) = Some (array e).
Proof.
  intros Hid Hget Hv Hq.
  rewrite (push_found _ _ _ _ Hid Hget), Hv.
  destruct (Array.fits v);
    [destruct (Array.len (array e) + 1 >? MAX_STACK_SIZE)|];
    cbn [fst snd]; try discriminate.
  intros _.
  destruct (pop_found _ _ _ _ Hq (touched_get stack_id (array e ++ [v]) w))
    as [[Hnil _]|(a & v' & Hsnoc & ->)]; cbn [array] in *.
  - destruct (array e); discriminate.
  - apply app_inj_tail in Hsnoc. destruct Hsnoc as [<- <-].
    cbn [fst snd]. split; [reflexivity|apply array_of_touched].
Qed.

(** ** The listing and the response header *)

Lemma string_app_assoc (a b c : string) :
  ((a ++ b) ++ c = a ++ (b ++ c))%string.
Proof.
  induction a as [|x a IH]; cbn [String.append]; [reflexivity|].
  rewrite IH. reflexivity.
Qed.

Lemma string_app_nil_r (s : string) : (s ++ EmptyString)%string = s.
Proof.
  induction s as [|x s IH]; cbn [String.append]; [reflexivity|].
  rewrite IH. reflexivity.
Qed.

Lemma drop_last_char_app (s t : string) :
  t <> EmptyString ->
  drop_last_char (s ++ t) = (s ++ drop_last_char t)%string.
Proof.
  intros Ht. induction s as [|x s IH]; cbn [String.append]; [reflexivity|].
  cbn [drop_last_char]. rewrite IH.
  destruct (s ++ t)%string eqn:E; [|reflexivity].
  destruct s; [cbn in E; contradiction|discriminate].
Qed.

Lemma list_lines_cons (i : Z) (stack : stack_entry)
    (entries : list stack_entry) :
  list_lines i (stack :: entries)
  = (list_line i stack ++ newline ++ list_lines (i + 1) entries)%string.
Proof.
  cbn [list_lines]. cbv zeta. unfold list_line.
  rewrite !string_app_assoc. reflexivity.
Qed.

(** Dropping the last character of [data] leaves the lines joined by
    newlines. *)
Lemma list_lines_joined (i : Z) (entries : list stack_entry) :
  drop_last_char (list_lines i entries)
  = String.concat newline (listing i entries).
Proof.
  revert i. induction entries as [|stack entries IH]; intros i.
  - reflexivity.
  - rewrite list_lines_cons. cbn [listing].
    rewrite drop_last_char_app by discriminate.
    destruct entries as [|stack' entries].
    + cbn [list_lines listing String.concat].
      change (drop_last_char (newline ++ EmptyString)) with EmptyString.
      apply string_app_nil_r.
    + change (String.concat newline
                (list_line i stack :: listing (i + 1) (stack' :: entries)))
        with (list_line i stack ++ newline
                ++ String.concat newline
                     (listing (i + 1) (stack' :: entries)))%string.
      rewrite <- IH. f_equal.
      rewrite list_lines_cons.
      change (newline ++ (list_line (i + 1) stack' ++ newline
                            ++ list_lines (i + 1 + 1) entries))%string
        with (String (ascii_of_nat 10)
                (list_line (i + 1) stack' ++ newline
                   ++ list_lines (i + 1 + 1) entries))%string.
      cbn [drop_last_char].
      destruct (list_line (i + 1) stack' ++ newline
                  ++ list_lines (i + 1 + 1) entries)%string eqn:E.
      * destruct (list_line (i + 1) stack'); discriminate.
      * reflexivity.
Qed.

(** X16. [list_stacks] answers with the number of stacks over
    [MAX_STACKS] and one line per stack, in the order of the store and
    numbered from 0, joined by newlines with none at the end (an empty
    store gives no line); it changes nothing, and through Flask every
    entry the sweep leaves keeps the expiry it had. *)
Theorem list_stacks_body (req : request) (w : world) :
  list_stacks w
  = (Val (Response
            (str (Dict.len (stacks w)) ++ "/" ++ str MAX_STACKS ++ " stacks"
               ++ newline ++ newline ++ "Stack list:" ++ newline
               ++ String.concat newline (listing 0 (Dict.values (stacks w))))
            200), w)
  /\ List.length (listing 0 (Dict.values (stacks w)))
     = List.length (stacks w)
  /\ (Dict.wf (stacks w) = true -> rule req = ep_list_stacks ->
      forall k e,
        Dict.get k (stacks (snd (handle_request req w))) = Some e ->
        Dict.get k (stacks w) = Some e).
Proof.
  split; [|split].
  - unfold list_stacks, bind, app_stacks, ret. cbv zeta.
    rewrite list_lines_joined. reflexivity.
  - unfold Dict.values. generalize 0.
    induction (stacks w) as [|[k e] d IH]; intros i; cbn [map listing];
      [reflexivity|].
    cbn [List.length]. rewrite IH. reflexivity.
  - intros Hwf Hrule k e. unfold handle_request, before_request.
    rewrite (remove_expired_stacks_swept w Hwf), Hrule.
    cbn [view_of]. unfold list_stacks, bind, app_stacks, ret.
    cbn [snd stacks]. apply (swept_get_inv _ _ _ _ Hwf).
Qed.

Lemma prefix_cons (a : ascii) (p s : string) :
  String.prefix (String a p) s = true ->
  exists s', s = String a s' /\ String.prefix p s' = true.
Proof.
  destruct s as [|b s]; cbn [String.prefix]; [discriminate|].
  destruct (ascii_dec a b) as [->|]; [|discriminate].
  intros H. exists s. split; [reflexivity|exact H].
Qed.

(** X17. After [set_plain_text] the Content-Type is "text/plain" for
    the root path, for every path under "/api/" and so for every rule
    of the application, whatever the response came with; a path under
    "/apidocs" or "/flasgger_static" keeps the type it came with; and
    the hook applied twice is the hook applied once. *)
Theorem api_responses_are_plain_text (path content_type : string) :
  (path = "/" \/ startswith path "/api/" = true ->
   set_plain_text path content_type = "text/plain")
  /\ (forall ep p, path_of ep = Some p ->
                   set_plain_text p content_type = "text/plain")
  /\ (startswith path "/apidocs" = true
      \/ startswith path "/flasgger_static" = true ->
      set_plain_text path content_type = content_type)
  /\ set_plain_text path (set_plain_text path content_type)
     = set_plain_text path content_type.
Proof.
  split; [|split; [|split]].
  - intros [->|Hapi]; [reflexivity|].
    unfold startswith in Hapi.
    apply prefix_cons in Hapi. destruct Hapi as (s1 & -> & Hapi).
    apply prefix_cons in Hapi. destruct Hapi as (s2 & -> & Hapi).
    apply prefix_cons in Hapi. destruct Hapi as (s3 & -> & Hapi).
    apply prefix_cons in Hapi. destruct Hapi as (s4 & -> & Hapi).
    apply prefix_cons in Hapi. destruct Hapi as (s5 & -> & _).
    reflexivity.
  - intros ep p Hp. destruct ep; try discriminate Hp;
      injection Hp as <-; reflexivity.
  - unfold set_plain_text. intros [->| ->]; [reflexivity|].
    rewrite andb_false_r. reflexivity.
  - unfold set_plain_text.
    destruct (negb (startswith path "/apidocs")
              && negb (startswith path "/flasgger_static")); reflexivity.
Qed.

(** X18. While the clock moves between [lo] and [hi], the sweep on a
    store with distinct keys runs to its end, reads the clock once per
    entry, deletes every entry that expired before [lo], keeps every
    entry that does not expire before [hi] as it is, and whatever it
    keeps was there before, with the same content, and does not expire
    before [lo]. *)
Theorem sweep_with_moving_clock (w : world) (lo hi : Z) :
  Dict.wf (stacks w) = true ->
  (forall i, (ticks w <= i < ticks w + List.length (stacks w))%nat ->
             lo <= clock i <= hi) ->
  exists w',
    remove_expired_stacks w = (Val tt, w')
    /\ ticks w' = (ticks w + List.length (stacks w))%nat
    /\ (forall k e, Dict.get k (stacks w) = Some e -> expiry e < lo ->
                    Dict.get k (stacks w') = None)
    /\ (forall k e, Dict.get k (stacks w) = Some e -> hi <= expiry e ->
                    Dict.get k (stacks w') = Some e)
    /\ (forall k e, Dict.get k (stacks w') = Some e ->
                    lo <= expiry e /\ Dict.get k (stacks w) = Some e).
Proof.
  intros Hwf Hclock.
  eexists. split; [apply (remove_expired_stacks_swept w Hwf)|].
  cbn [stacks ticks]. split; [reflexivity|]. split; [|split].
  - intros k e Hk Hlo.
    apply (proj1 (swept_get_between lo hi k _ _ e Hclock Hwf Hk) Hlo).
  - intros k e Hk Hhi.
    apply (proj2 (swept_get_between lo hi k _ _ e Hclock Hwf Hk) Hhi).
  - intros k e Hk.
    pose proof (swept_get_inv _ _ _ _ Hwf Hk) as Hbefore.
    split; [|exact Hbefore].
    pose proof (swept_get_at k (stacks w) (ticks w) Hwf) as Hat.
    rewrite Hbefore in Hat. destruct Hat as (i & Hi & Hget).
    rewrite Hk in Hget. specialize (Hclock i Hi).
    destruct (expiry e <? clock i) eqn:E; [discriminate|lia].
Qed.

(** X20. A pop from a stack that is not empty and within its bounds,
    followed by a push of the value the pop returned (as [str] printed
    it and [int] reads it back), is answered "Ok" and gives back the
    array as it was before the pop. *)
Theorem pop_then_push (q : request) (w : world) (stack_id : Z)
    (e : stack_entry) :
  (forall n, int_of_str (str n) = Some n) ->
  int_arg "id" q = Some stack_id ->
  Dict.get stack_id (stacks w) = Some e ->
  within_bounds (array e) -> array e <> [] ->
  exists body,
    fst (pop q w) = Val (Response body 200)
    /\ forall req,
         int_arg "id" req = Some stack_id ->
         args_get "value" req = Some body ->
         fst (push req (snd (pop q w))) = Val Ok
         /\ array_of stack_id (snd (push req (snd (pop q w))))
            = Some (array e).
Proof.
  intros Hinv Hq Hget [Hlen Hfits] Hne.
  destruct (pop_found _ _ _ _ Hq Hget) as [[Hnil _]|(a & v & Hsnoc & ->)];
    [contradiction|].
  exists (str v). cbn [fst snd]. split; [reflexivity|].
  intros req Hid Hbody.
  assert (Hv : int_arg "value" req = Some v)
    by (unfold int_arg; rewrite Hbody; apply Hinv).
  rewrite Hsnoc in Hfits, Hlen. apply Forall_app in Hfits.
  destruct Hfits as [_ Hfit]. apply Forall_inv in Hfit.
  rewrite array_len_snoc in Hlen.
  rewrite (push_found _ _ _ _ Hid (touched_get stack_id a w)), Hv, Hfit.
  cbn [array].
  destruct (Array.len a + 1 >? MAX_STACK_SIZE) eqn:E; [lia|].
  cbn [fst snd]. split; [reflexivity|].
  rewrite array_of_touched, Hsnoc. reflexivity.
Qed.

End Server.

(** ** The statements at concrete inputs *)

(** [decimal] reads back what [str] prints. *)
Lemma decimal_str (n : Z) : decimal (str n) = Some n.
Proof.
  unfold decimal, str. rewrite NilZero.isi.
  - cbn [option_map]. f_equal. apply DecimalZ.of_to.
  - destruct n as [|p|p]; cbn [Z.to_int]; try discriminate.
    intros [= H]. apply (DecimalPos.Unsigned.to_uint_nonnil p H).
  - destruct n as [|p|p]; cbn [Z.to_int]; try discriminate.
    intros [= H]. apply (DecimalPos.Unsigned.to_uint_nonnil p H).
Qed.

(** A stack filled to [MAX_STACK_SIZE], and a push on a short one. *)
Lemma push_capacity_witness :
  let full := repeat 0 (Z.to_nat MAX_STACK_SIZE) in
  let req := query ep_push "7" "value" "5" in
  (push (frozen 100) decimal req (single 7 full 3700)
   = (Val StackOverflow, touched (frozen 100) 7 full (single 7 full 3700))
   /\ fst (size (frozen 100) decimal (query_id ep_size "7")
             (touched (frozen 100) 7 full (single 7 full 3700)))
      = Val (Response "102400" 200))
  /\ push (frozen 100) decimal req (single 7 [1; 2] 3700)
     = (Val Ok, touched (frozen 100) 7 [1; 2; 5] (single 7 [1; 2] 3700)).
Proof.
  cbv zeta.
  assert (Hfull : Array.len (repeat 0 (Z.to_nat MAX_STACK_SIZE))
                  = MAX_STACK_SIZE).
  { unfold Array.len. rewrite repeat_length. apply Z2Nat.id. discriminate. }
  split.
  - exact (proj1 (push_capacity (frozen 100) decimal
                    (query ep_push "7" "value" "5") (query_id ep_size "7")
                    (single 7 (repeat 0 (Z.to_nat MAX_STACK_SIZE)) 3700) 7
                    {| array := repeat 0 (Z.to_nat MAX_STACK_SIZE);
                       expiry := 3700 |} 5
                    eq_refl eq_refl eq_refl eq_refl eq_refl) Hfull).
  - exact (proj2 (push_capacity (frozen 100) decimal
                    (query ep_push "7" "value" "5") (query_id ep_size "7")
                    (single 7 [1; 2] 3700) 7
                    {| array := [1; 2]; expiry := 3700 |} 5
                    eq_refl eq_refl eq_refl eq_refl eq_refl) eq_refl).
Defined.

(** A count above and a count within the length of a stack of three. *)
Lemma pop_bulk_atomic_witness :
  let w := single 7 [1; 2; 3] 3700 in
  pop_bulk (frozen 100) decimal (query ep_pop_bulk "7" "count" "5") w
  = (Val Underflow, touched (frozen 100) 7 [1; 2; 3] w)
  /\ pop_bulk (frozen 100) decimal (query ep_pop_bulk "7" "count" "2") w
     = (Val (Response "3,2" 200), touched (frozen 100) 7 [1] w).
Proof.
  cbv zeta. split.
  - exact (proj1 (pop_bulk_atomic (frozen 100) decimal
                    (query ep_pop_bulk "7" "count" "5")
                    (single 7 [1; 2; 3] 3700) 7
                    {| array := [1; 2; 3]; expiry := 3700 |} 5
                    eq_refl eq_refl eq_refl) eq_refl).
  - refine (proj1 (proj2 (pop_bulk_atomic (frozen 100) decimal
                            (query ep_pop_bulk "7" "count" "2")
                            (single 7 [1; 2; 3] 3700) 7
                            {| array := [1; 2; 3]; expiry := 3700 |} 2
                            eq_refl eq_refl eq_refl) _)).
    split; discriminate.
Defined.

(** A negative count on a stack of three. *)
Lemma pop_bulk_negative_count_witness :
  let w := single 7 [1; 2; 3] 3700 in
  pop_bulk (frozen 100) decimal (query ep_pop_bulk "7" "count" "-4") w
  = (Val (Response "" 200), touched (frozen 100) 7 [1; 2; 3] w).
Proof.
  exact (pop_bulk_negative_count (frozen 100) decimal
           (query ep_pop_bulk "7" "count" "-4") (single 7 [1; 2; 3] 3700) 7
           {| array := [1; 2; 3]; expiry := 3700 |} (-4)
           eq_refl eq_refl eq_refl eq_refl).
Defined.

(** A stack one element short of [MAX_STACK_SIZE] and a batch of
    three. *)
Lemma push_bulk_past_capacity_witness :
  let almost := repeat 0 (Z.to_nat (MAX_STACK_SIZE - 1)) in
  let w := single 7 almost 3700 in
  push_bulk (frozen 100) decimal (query ep_push_bulk "7" "values" "1,2,3") w
  = (Val StackOverflow, touched (frozen 100) 7 (almost ++ [1]) w)
  /\ Array.len (almost ++ [1]) = MAX_STACK_SIZE.
Proof.
  cbv zeta.
  assert (Hlen : Array.len (repeat 0 (Z.to_nat (MAX_STACK_SIZE - 1)))
                 = MAX_STACK_SIZE - 1).
  { unfold Array.len. rewrite repeat_length. apply Z2Nat.id. discriminate. }
  assert (Hroom : room (repeat 0 (Z.to_nat (MAX_STACK_SIZE - 1))) = 1%nat).
  { unfold room. rewrite Hlen. reflexivity. }
  pose proof (push_bulk_past_capacity (frozen 100) decimal
                (query ep_push_bulk "7" "values" "1,2,3")
                (single 7 (repeat 0 (Z.to_nat (MAX_STACK_SIZE - 1))) 3700) 7
                {| array := repeat 0 (Z.to_nat (MAX_STACK_SIZE - 1));
                   expiry := 3700 |}
                "1,2,3" [1; 2; 3] eq_refl eq_refl eq_refl) as H.
  cbn [array] in H. rewrite Hroom, Hlen in H.
  apply H.
  - discriminate.
  - reflexivity.
  - discriminate.
  - reflexivity.
  - repeat constructor.
Defined.

(** A batch with a piece that is no integer, and a batch whose second
    element does not fit a signed 64-bit slot. *)
Lemma push_bulk_invalid_batch_witness :
  let w := single 7 [] 3700 in
  push_bulk (frozen 100) decimal (query ep_push_bulk "7" "values" "1,x") w
  = (Val NotAllIntegers, touched (frozen 100) 7 [] w)
  /\ push_bulk (frozen 100) decimal
       (query ep_push_bulk "7" "values" "1,9223372036854775808") w
     = (Val ValueTooLarge, touched (frozen 100) 7 [1] w).
Proof.
  cbv zeta. split.
  - refine (proj1 (push_bulk_invalid_batch (frozen 100) decimal
                     (query ep_push_bulk "7" "values" "1,x")
                     (single 7 [] 3700) 7 {| array := []; expiry := 3700 |}
                     "1,x" eq_refl eq_refl eq_refl _) eq_refl).
    discriminate.
  - refine (proj2 (proj2 (push_bulk_invalid_batch (frozen 100) decimal
                     (query ep_push_bulk "7" "values" "1,9223372036854775808")
                     (single 7 [] 3700) 7 {| array := []; expiry := 3700 |}
                     "1,9223372036854775808" eq_refl eq_refl eq_refl _))
              [1] 9223372036854775808 [] eq_refl _ eq_refl _).
    + discriminate.
    + repeat constructor.
    + discriminate.
Defined.

(** C1 fails on the code. The batch "1,9223372036854775808" on an empty
    stack is answered "Value is too large", and the stack then holds
    the 1 that came before the element out of range; so it is for the
    view alone and for the whole request. *)
Lemma push_bulk_range_error_keeps_prefix :
  let req := query ep_push_bulk "7" "values" "1,9223372036854775808" in
  let w := single 7 [] 3700 in
  let served :=
    handle_request (frozen 100) (counter 0) decimal (fun _ => 0) req w in
  fst (push_bulk (frozen 100) decimal req w) = Val ValueTooLarge
  /\ array_of 7 w = Some []
  /\ array_of 7 (snd (push_bulk (frozen 100) decimal req w)) = Some [1]
  /\ array_of 7 (snd (push_bulk (frozen 100) decimal req w)) <> array_of 7 w
  /\ fst served = Sent ValueTooLarge
  /\ array_of 7 (snd served) = Some [1].
Proof.
  cbv zeta. vm_compute. repeat split. discriminate.
Qed.

(** Two pushes on an empty stack, then [size], two pops and one more. *)
Lemma lifo_witness :
  let q := query_id ep_pop "7" in
  let pushes := [query ep_push "7" "value" "5"; query ep_push "7" "value" "7"] in
  let w1 :=
    snd (call_all (push (frozen 100) decimal) pushes (single 7 [] 3700)) in
  exists w2 w3 w4,
    size (frozen 100) decimal q w1 = (Val (Response "2" 200), w2)
    /\ call_all (pop (frozen 100) decimal) [q; q] w2
       = (Val [Response "7" 200; Response "5" 200], w3)
    /\ pop (frozen 100) decimal q w3 = (Val Underflow, w4).
Proof.
  cbv zeta.
  refine (lifo (frozen 100) decimal
            [query ep_push "7" "value" "5"; query ep_push "7" "value" "7"]
            [query_id ep_pop "7"; query_id ep_pop "7"]
            (query_id ep_pop "7") (query_id ep_pop "7") [5; 7]
            (single 7 [] 3700) _ 7 {| array := []; expiry := 3700 |}
            eq_refl eq_refl _ eq_refl eq_refl _ eq_refl eq_refl).
  - repeat constructor.
  - repeat constructor.
Defined.

(** Two elements popped from a stack of three and pushed back. *)
Lemma pop_bulk_push_bulk_round_trip_witness :
  let w := single 7 [1; 2; 3] 3700 in
  let w1 := touched (frozen 100) 7 [1] w in
  let back := query ep_push_bulk "7" "values" "2,3" in
  pop_bulk (frozen 100) decimal (query ep_pop_bulk "7" "count" "2") w
  = (Val (Response "3,2" 200), w1)
  /\ fst (push_bulk (frozen 100) decimal back w1) = Val Ok
  /\ array_of 7 (snd (push_bulk (frozen 100) decimal back w1))
     = Some [1; 2; 3].
Proof.
  cbv zeta.
  assert (Hrange : 0 <= 2 <= Array.len [1; 2; 3]) by (split; discriminate).
  destruct (pop_bulk_push_bulk_round_trip (frozen 100) decimal
              (query ep_pop_bulk "7" "count" "2")
              (query ep_push_bulk "7" "values" "2,3")
              (single 7 [1; 2; 3] 3700) 7
              {| array := [1; 2; 3]; expiry := 3700 |} 2
              decimal_str eq_refl eq_refl eq_refl Hrange eq_refl eq_refl)
    as (Hpop & _ & Hback & Hok).
  assert (Hfits : Forall (fun v => Array.fits v = true) [1; 2; 3])
    by (repeat constructor).
  assert (Hcap : Array.len [1; 2; 3] <= MAX_STACK_SIZE) by discriminate.
  specialize (Hok Hcap Hfits).
  split; [exact Hpop|]. split; [exact Hok|].
  apply Hback; rewrite Hok; discriminate.
Defined.

(** A store of two stacks, the first of which has expired, swept while
    the clock stands at 100. *)
Lemma sweep_removes_expired_witness :
  let gone := {| array := [1]; expiry := 50 |} in
  let kept := {| array := [2]; expiry := 200 |} in
  let w := {| stacks := [(1, gone); (2, kept)]; ticks := 0; draws := 0 |} in
  exists w',
    before_request (frozen 100) w = (Val tt, w')
    /\ Dict.get 1 (stacks w') = None
    /\ Dict.get 2 (stacks w') = Some kept.
Proof.
  cbv zeta.
  destruct (sweep_removes_expired (frozen 100) (counter 0) decimal
              (fun _ => 0)
              {| stacks := [(1, {| array := [1]; expiry := 50 |});
                            (2, {| array := [2]; expiry := 200 |})];
                 ticks := 0; draws := 0 |}
              100 100 eq_refl)
    as (w' & Hrun & _ & Hgone & Hkept & _).
  - intros i Hi. split; discriminate.
  - exists w'. split; [exact Hrun|]. split.
    + apply (Hgone 1 {| array := [1]; expiry := 50 |} eq_refl eq_refl).
    + apply (Hkept 2 {| array := [2]; expiry := 200 |} eq_refl).
      discriminate.
Defined.

(** C7 fails on the code as it is stated. Two stacks expire at 100; the
    clock reads 100 for the first and 101 for the second. The sweep
    keeps the first and deletes the second, so that for no time [now]
    the deleted entries are exactly those with an expiry below
    [now]. *)
Lemma sweep_not_exact_for_one_now :
  let first := {| array := [1]; expiry := 100 |} in
  let second := {| array := [2]; expiry := 100 |} in
  let w := {| stacks := [(1, first); (2, second)];
              ticks := 0; draws := 0 |} in
  let w' := snd (before_request (counter 100) w) in
  fst (before_request (counter 100) w) = Val tt
  /\ Dict.get 1 (stacks w') = Some first
  /\ Dict.get 2 (stacks w') = None
  /\ ~ (exists now,
          (forall k e, Dict.get k (stacks w) = Some e -> expiry e < now ->
                       Dict.get k (stacks w') = None)
          /\ (forall k e, Dict.get k (stacks w) = Some e ->
                          now <= expiry e ->
                          Dict.get k (stacks w') = Some e)).
Proof.
  cbv zeta. split; [reflexivity|]. split; [reflexivity|].
  split; [reflexivity|].
  intros (now & Hbelow & Hkeep).
  specialize (Hkeep 2 {| array := [2]; expiry := 100 |} eq_refl).
  specialize (Hbelow 1 {| array := [1]; expiry := 100 |} eq_refl).
  cbn [expiry] in *.
  destruct (Z_lt_le_dec 100 now) as [Hlt|Hle].
  - specialize (Hbelow Hlt). discriminate Hbelow.
  - specialize (Hkeep Hle). discriminate Hkeep.
Qed.

(** [create] on the empty store and on a store of [MAX_STACKS]
    stacks. *)
Lemma store_bound_witness :
  let empty := {| stacks := []; ticks := 0; draws := 0 |} in
  let full :=
    {| stacks := map (fun i => (Z.of_nat i,
                                {| array := []; expiry := 3700 |}))
                     (seq 0 1000);
       ticks := 0; draws := 0 |} in
  create (frozen 100) (counter 41) empty
  = (Val (Response "41" 201),
     {| stacks := [(41, {| array := []; expiry := 3700 |})];
        ticks := 1; draws := 1 |})
  /\ create (frozen 100) (counter 41) full = (Val TooManyStacks, full)
  /\ Dict.len
       (stacks
          (snd (handle_request (frozen 100) (counter 41) decimal (fun _ => 0)
                  {| rule := ep_create; args := [] |} full)))
     <= MAX_STACKS.
Proof.
  cbv zeta. split; [|split].
  - refine (proj1 (store_bound (frozen 100) (counter 41) decimal (fun _ => 0)
                     {| rule := ep_create; args := [] |}
                     {| stacks := []; ticks := 0; draws := 0 |} _)).
    discriminate.
  - refine (proj1 (store_bound (frozen 100) (counter 41) decimal (fun _ => 0)
                     {| rule := ep_create; args := [] |}
                     {| stacks := map (fun i => (Z.of_nat i,
                                                 {| array := [];
                                                    expiry := 3700 |}))
                                      (seq 0 1000);
                        ticks := 0; draws := 0 |} _)).
    discriminate.
  - refine (proj2 (proj2 (proj2 (proj2 (proj2
              (store_bound (frozen 100) (counter 41) decimal (fun _ => 0)
                 {| rule := ep_create; args := [] |}
                 {| stacks := map (fun i => (Z.of_nat i,
                                             {| array := [];
                                                expiry := 3700 |}))
                                  (seq 0 1000);
                    ticks := 0; draws := 0 |} _)))))).
    discriminate.
Defined.

(** A pop on an empty stack and a push of something that is no
    integer: both fail, and both leave the expiry at the reading of the
    clock plus one hour. *)
Lemma lookup_refreshes_expiry_witness :
  let w := single 7 [] 200 in
  let bad_push := query ep_push "7" "value" "x" in
  (fst (pop (frozen 100) decimal (query_id ep_pop "7") w) = Val Underflow
   /\ expiry_of 7 (snd (pop (frozen 100) decimal (query_id ep_pop "7") w))
      = Some 3700)
  /\ (fst (push (frozen 100) decimal bad_push w) = Val NotAnInteger
      /\ expiry_of 7 (snd (push (frozen 100) decimal bad_push w))
         = Some 3700).
Proof.
  cbv zeta. split; (split; [reflexivity|]).
  - refine (proj1 (proj2 (lookup_refreshes_expiry (frozen 100) (counter 0)
                            decimal (fun _ => 0) ep_pop
                            (pop (frozen 100) decimal)
                            (query_id ep_pop "7") (single 7 [] 200) 7
                            {| array := []; expiry := 200 |}
                            eq_refl eq_refl eq_refl eq_refl)) _).
    discriminate.
  - refine (proj1 (proj2 (lookup_refreshes_expiry (frozen 100) (counter 0)
                            decimal (fun _ => 0) ep_push
                            (push (frozen 100) decimal)
                            (query ep_push "7" "value" "x")
                            (single 7 [] 200) 7
                            {| array := []; expiry := 200 |}
                            eq_refl eq_refl eq_refl eq_refl)) _).
    discriminate.
Defined.
(** The scenario of the specification: create, push 5, push 7, peek,
    pop, size, pop, pop. *)
Example scenario :
  let handle := handle_request (frozen 100) (counter 41) decimal (fun _ => 0) in
  fst (serve handle
         [ {| rule := ep_create; args := [] |};
           query ep_push "41" "value" "5";
           query ep_push "41" "value" "7";
           query_id ep_peek "41";
           query_id ep_pop "41";
           query_id ep_size "41";
           query_id ep_pop "41";
           query_id ep_pop "41" ]
         {| stacks := []; ticks := 0; draws := 0 |})
  = [ Sent (Response "41" 201); Sent Ok; Sent Ok;
      Sent (Response "7" 200); Sent (Response "7" 200);
      Sent (Response "1" 200); Sent (Response "5" 200); Sent Underflow ].
Proof. vm_compute. reflexivity. Qed.


(** ** The further properties at concrete inputs *)

(** The requests of the scenario, served from the empty store. *)
Lemma served_store_ok_witness :
  let handle := handle_request (frozen 100) (counter 41) decimal (fun _ => 0) in
  let reqs := [ {| rule := ep_create; args := [] |};
                query ep_push "41" "value" "5";
                query_id ep_pop "41"; query_id ep_pop "41";
                query_id ep_destroy "41"; query_id ep_size "41" ] in
  let start := {| stacks := []; ticks := 0; draws := 0 |} in
  store_ok (snd (serve handle reqs start))
  /\ Forall (fun o => forall ex, o <> InternalServerError ex)
            (fst (serve handle reqs start)).
Proof.
  cbv zeta.
  refine (served_store_ok (frozen 100) (counter 41) decimal (fun _ => 0)
            _ {| stacks := []; ticks := 0; draws := 0 |} _).
  split; [reflexivity|]. split; [discriminate|]. intros k e H. discriminate H.
Defined.

(** A stack that expired at 50, asked for its size at 100. *)
Lemma expired_stack_not_found_witness :
  let served :=
    handle_request (frozen 100) (counter 41) decimal (fun _ => 0)
      (query_id ep_size "7") (single 7 [1] 50) in
  fst served = Sent NotFound /\ Dict.get 7 (stacks (snd served)) = None.
Proof.
  cbv zeta.
  refine (expired_stack_not_found (frozen 100) (counter 41) decimal
            (fun _ => 0) (size (frozen 100) decimal)
            (query_id ep_size "7") (single 7 [1] 50) 7
            {| array := [1]; expiry := 50 |}
            eq_refl eq_refl eq_refl eq_refl eq_refl _).
  intros i Hi. reflexivity.
Defined.

(** A stack that expires at 200, asked for its size at 100, and the same
    stack destroyed at 100. *)
Lemma live_stack_window_resets_witness :
  let served :=
    handle_request (frozen 100) (counter 41) decimal (fun _ => 0)
      (query_id ep_size "7") (single 7 [1] 200) in
  let destroyed :=
    handle_request (frozen 100) (counter 41) decimal (fun _ => 0)
      (query_id ep_destroy "7") (single 7 [1] 200) in
  (exists r, fst served = Sent r /\ r <> NotFound /\ r <> BadStackId)
  /\ expiry_of 7 (snd served) = Some 3700
  /\ fst destroyed = Sent Ok
  /\ Dict.get 7 (stacks (snd destroyed)) = None.
Proof.
  cbv zeta.
  assert (Hlive : forall i : nat,
            (0 <= i < 0 + 1)%nat -> frozen 100 i <= 200)
    by (intros i Hi; discriminate).
  destruct (live_stack_window_resets (frozen 100) (counter 41) decimal
              (fun _ => 0) (size (frozen 100) decimal)
              (query_id ep_size "7") (single 7 [1] 200) 7
              {| array := [1]; expiry := 200 |}
              eq_refl eq_refl eq_refl eq_refl eq_refl Hlive)
    as (Hfound & Hreset & _).
  destruct (live_stack_window_resets (frozen 100) (counter 41) decimal
              (fun _ => 0) (destroy (frozen 100) decimal)
              (query_id ep_destroy "7") (single 7 [1] 200) 7
              {| array := [1]; expiry := 200 |}
              eq_refl eq_refl eq_refl eq_refl eq_refl Hlive)
    as (_ & _ & Hdestroy).
  split; [exact Hfound|]. split; [apply Hreset; discriminate|].
  apply Hdestroy. reflexivity.
Defined.

(** A pop with an identifier that is no integer, and one with an
    identifier that is not in the store. *)
Lemma failed_lookup_changes_nothing_witness :
  let w := single 7 [1] 3700 in
  pop (frozen 100) decimal (query_id ep_pop "x") w = (Val BadStackId, w)
  /\ pop (frozen 100) decimal (query_id ep_pop "9") w = (Val NotFound, w).
Proof.
  cbv zeta. split.
  - exact (proj1 (failed_lookup_changes_nothing (frozen 100) (counter 41)
                    decimal (fun _ => 0) ep_pop (pop (frozen 100) decimal)
                    (query_id ep_pop "x") (single 7 [1] 3700)
                    eq_refl eq_refl) eq_refl).
  - exact (proj2 (failed_lookup_changes_nothing (frozen 100) (counter 41)
                    decimal (fun _ => 0) ep_pop (pop (frozen 100) decimal)
                    (query_id ep_pop "9") (single 7 [1] 3700)
                    eq_refl eq_refl) 9 eq_refl eq_refl).
Defined.

(** A push on stack 7 beside stack 8. *)
Lemma other_stacks_untouched_witness :
  let w := {| stacks := [(7, {| array := [1]; expiry := 3700 |});
                         (8, {| array := [2]; expiry := 3000 |})];
              ticks := 0; draws := 0 |} in
  Dict.get 8 (stacks (snd (push (frozen 100) decimal
                             (query ep_push "7" "value" "5") w)))
  = Some {| array := [2]; expiry := 3000 |}.
Proof.
  cbv zeta.
  refine (proj1 (other_stacks_untouched (frozen 100) (counter 41) decimal
                   (fun _ => 0) ep_push (push (frozen 100) decimal)
                   (query ep_push "7" "value" "5")
                   {| stacks := [(7, {| array := [1]; expiry := 3700 |});
                                 (8, {| array := [2]; expiry := 3000 |})];
                      ticks := 0; draws := 0 |} 8 eq_refl) _ _);
    discriminate.
Defined.

(** A peek at a stack of two. *)
Lemma peek_reads_top_witness :
  let w := single 7 [1; 2] 3700 in
  let q := query_id ep_peek "7" in
  peek (frozen 100) decimal q w
  = (Val (Response "2" 200), touched (frozen 100) 7 [1; 2] w)
  /\ fst (pop (frozen 100) decimal q (snd (peek (frozen 100) decimal q w)))
     = Val (Response "2" 200).
Proof.
  cbv zeta.
  destruct (peek_reads_top (frozen 100) decimal (query_id ep_peek "7")
              (query_id ep_peek "7") (single 7 [1; 2] 3700) 7
              {| array := [1; 2]; expiry := 3700 |} eq_refl eq_refl eq_refl)
    as [Hpeek Hpop].
  split; [exact Hpeek|exact (Hpop 2 eq_refl)].
Defined.

(** The first of two stacks destroyed. *)
Lemma destroy_removes_witness :
  let w := {| stacks := [(7, {| array := [1]; expiry := 3700 |});
                         (8, {| array := [2]; expiry := 3000 |})];
              ticks := 0; draws := 0 |} in
  let req := query_id ep_destroy "7" in
  let w1 := snd (destroy (frozen 100) decimal req w) in
  fst (destroy (frozen 100) decimal req w) = Val Ok
  /\ Dict.get 7 (stacks w1) = None
  /\ Dict.len (stacks w1) = 1
  /\ destroy (frozen 100) decimal req w1 = (Val NotFound, w1).
Proof.
  cbv zeta.
  destruct (destroy_removes (frozen 100) decimal (query_id ep_destroy "7")
              {| stacks := [(7, {| array := [1]; expiry := 3700 |});
                            (8, {| array := [2]; expiry := 3000 |})];
                 ticks := 0; draws := 0 |} 7
              {| array := [1]; expiry := 3700 |} eq_refl eq_refl eq_refl)
    as (Hok & Hgone & Hlen & _ & Hagain).
  split; [exact Hok|]. split; [exact Hgone|]. split; [exact Hlen|exact Hagain].
Defined.

(** A stack created in the empty store, used and destroyed. *)
Lemma created_stack_is_usable_witness :
  let w := {| stacks := []; ticks := 0; draws := 0 |} in
  let q := query_id ep_size "41" in
  let w1 := snd (create (frozen 100) (counter 41) w) in
  fst (create (frozen 100) (counter 41) w) = Val (Response "41" 201)
  /\ fst (size (frozen 100) decimal q w1) = Val (Response "0" 200)
  /\ fst (pop (frozen 100) decimal q w1) = Val Underflow
  /\ fst (peek (frozen 100) decimal q w1) = Val Empty
  /\ fst (destroy (frozen 100) decimal q w1) = Val Ok
  /\ stacks (snd (destroy (frozen 100) decimal q w1)) = [].
Proof.
  cbv zeta.
  destruct (created_stack_is_usable (frozen 100) (counter 41) decimal
              (query_id ep_size "41")
              {| stacks := []; ticks := 0; draws := 0 |}
              decimal_str eq_refl eq_refl)
    as (Hcreate & Hsize & Hpop & Hpeek & Hdestroy).
  destruct (Hdestroy eq_refl) as [Hok Hback].
  repeat (split; [assumption|]). exact Hback.
Defined.

(** The store filled from empty with the identifiers 41, 42, ... *)
Lemma creates_until_full_witness :
  let w := {| stacks := []; ticks := 0; draws := 0 |} in
  exists w',
    repeat_collect (Z.to_nat MAX_STACKS) (create (frozen 100) (counter 41)) w
    = (Val (map (fun i => Response (str (counter 41 i)) 201)
                (seq 0 (Z.to_nat MAX_STACKS))), w')
    /\ Dict.len (stacks w') = MAX_STACKS
    /\ create (frozen 100) (counter 41) w' = (Val TooManyStacks, w').
Proof.
  cbv zeta.
  destruct (creates_until_full (frozen 100) (counter 41)
              {| stacks := []; ticks := 0; draws := 0 |} eq_refl)
    as (w' & Hrun & Hfull).
  exists w'. split; [exact Hrun|]. apply Hfull.
  intros i j Hij Hj. unfold counter. lia.
Defined.

(** A store of [MAX_STACKS] stacks, one of which is destroyed. *)
Lemma destroy_makes_room_witness :
  let w :=
    {| stacks := map (fun i => (Z.of_nat i,
                                {| array := []; expiry := 3700 |}))
                     (seq 0 1000);
       ticks := 0; draws := 0 |} in
  let req := query_id ep_destroy "7" in
  create (frozen 100) (counter 5000) w = (Val TooManyStacks, w)
  /\ fst (destroy (frozen 100) decimal req w) = Val Ok
  /\ fst (create (frozen 100) (counter 5000)
            (snd (destroy (frozen 100) decimal req w)))
     = Val (Response "5000" 201).
Proof.
  cbv zeta.
  exact (destroy_makes_room (frozen 100) (counter 5000) decimal
           (query_id ep_destroy "7")
           {| stacks := map (fun i => (Z.of_nat i,
                                       {| array := []; expiry := 3700 |}))
                            (seq 0 1000);
              ticks := 0; draws := 0 |} 7
           {| array := []; expiry := 3700 |} eq_refl eq_refl eq_refl).
Defined.


(** Four refused arguments on a stack of two. *)
Lemma rejected_input_keeps_array_witness :
  let w := single 7 [1; 2] 3700 in
  let same := touched (frozen 100) 7 [1; 2] w in
  push (frozen 100) decimal (query ep_push "7" "value" "x") w
  = (Val NotAnInteger, same)
  /\ push (frozen 100) decimal
       (query ep_push "7" "value" "-9223372036854775809") w
     = (Val ValueTooLarge, same)
  /\ push_bulk (frozen 100) decimal (query ep_push_bulk "7" "values" "") w
     = (Val MissingInput, same)
  /\ pop_bulk (frozen 100) decimal (query ep_pop_bulk "7" "count" "two") w
     = (Val BadCount, same).
Proof.
  cbv zeta. split; [|split; [|split]].
  - exact (proj1 (rejected_input_keeps_array (frozen 100) decimal
                    (query ep_push "7" "value" "x") (single 7 [1; 2] 3700) 7
                    {| array := [1; 2]; expiry := 3700 |} eq_refl eq_refl)
             eq_refl).
  - exact (proj1 (proj2 (rejected_input_keeps_array (frozen 100) decimal
                           (query ep_push "7" "value" "-9223372036854775809")
                           (single 7 [1; 2] 3700) 7
                           {| array := [1; 2]; expiry := 3700 |}
                           eq_refl eq_refl))
             (-9223372036854775809) eq_refl eq_refl).
  - exact (proj1 (proj2 (proj2 (rejected_input_keeps_array (frozen 100)
                                  decimal
                                  (query ep_push_bulk "7" "values" "")
                                  (single 7 [1; 2] 3700) 7
                                  {| array := [1; 2]; expiry := 3700 |}
                                  eq_refl eq_refl)))
             (or_intror eq_refl)).
  - exact (proj2 (proj2 (proj2 (rejected_input_keeps_array (frozen 100)
                                  decimal
                                  (query ep_pop_bulk "7" "count" "two")
                                  (single 7 [1; 2] 3700) 7
                                  {| array := [1; 2]; expiry := 3700 |}
                                  eq_refl eq_refl)))
             eq_refl).
Defined.

(** A batch of two on a stack of one. *)
Lemma push_bulk_ok_iff_witness :
  let w := single 7 [1] 3700 in
  let req := query ep_push_bulk "7" "values" "2,3" in
  fst (push_bulk (frozen 100) decimal req w) = Val Ok
  /\ snd (push_bulk (frozen 100) decimal req w)
     = touched (frozen 100) 7 [1; 2; 3] w.
Proof.
  cbv zeta.
  destruct (push_bulk_ok_iff (frozen 100) decimal
              (query ep_push_bulk "7" "values" "2,3") (single 7 [1] 3700) 7
              {| array := [1]; expiry := 3700 |} "2,3" [2; 3]
              eq_refl eq_refl eq_refl) as [Hiff Hafter].
  - discriminate.
  - reflexivity.
  - discriminate.
  - assert (Hok : fst (push_bulk (frozen 100) decimal
                         (query ep_push_bulk "7" "values" "2,3")
                         (single 7 [1] 3700)) = Val Ok).
    { apply Hiff. split; [repeat constructor|discriminate]. }
    split; [exact Hok|exact (Hafter Hok)].
Defined.

(** The same batch, and its values pushed one request at a time. *)
Lemma push_bulk_as_pushes_witness :
  let w := single 7 [1] 3700 in
  let req := query ep_push_bulk "7" "values" "2,3" in
  let pushes := [query ep_push "7" "value" "2";
                 query ep_push "7" "value" "3"] in
  fst (call_all (push (frozen 100) decimal) pushes w) = Val [Ok; Ok]
  /\ array_of 7 (snd (call_all (push (frozen 100) decimal) pushes w))
     = array_of 7 (snd (push_bulk (frozen 100) decimal req w)).
Proof.
  cbv zeta.
  destruct (push_bulk_as_pushes (frozen 100) decimal
              (query ep_push_bulk "7" "values" "2,3")
              [query ep_push "7" "value" "2"; query ep_push "7" "value" "3"]
              (single 7 [1] 3700) 7
              {| array := [1]; expiry := 3700 |} "2,3" [2; 3]
              eq_refl eq_refl eq_refl) as [Hiff Hsame].
  - discriminate.
  - reflexivity.
  - repeat constructor.
  - split; [apply Hiff; reflexivity|apply Hsame; reflexivity].
Defined.

(** Two elements popped at once and one at a time from a stack of
    three. *)
Lemma pop_bulk_as_pops_witness :
  let w := single 7 [1; 2; 3] 3700 in
  let q := query_id ep_pop "7" in
  exists bodies,
    fst (call_all (pop (frozen 100) decimal) [q; q] w)
    = Val (map (fun b => Response b 200) bodies)
    /\ fst (pop_bulk (frozen 100) decimal
              (query ep_pop_bulk "7" "count" "2") w)
       = Val (Response (join_comma bodies) 200)
    /\ array_of 7 (snd (call_all (pop (frozen 100) decimal) [q; q] w))
       = array_of 7 (snd (pop_bulk (frozen 100) decimal
                            (query ep_pop_bulk "7" "count" "2") w)).
Proof.
  cbv zeta.
  refine (pop_bulk_as_pops (frozen 100) decimal
            (query ep_pop_bulk "7" "count" "2")
            [query_id ep_pop "7"; query_id ep_pop "7"]
            (single 7 [1; 2; 3] 3700) 7
            {| array := [1; 2; 3]; expiry := 3700 |} 2
            eq_refl eq_refl eq_refl _ _ eq_refl).
  - split; discriminate.
  - repeat constructor.
Defined.

(** A 5 pushed on a stack of one and popped again. *)
Lemma push_then_pop_witness :
  let w := single 7 [1] 3700 in
  let req := query ep_push "7" "value" "5" in
  let q := query_id ep_pop "7" in
  let w1 := snd (push (frozen 100) decimal req w) in
  fst (pop (frozen 100) decimal q w1) = Val (Response "5" 200)
  /\ array_of 7 (snd (pop (frozen 100) decimal q w1)) = Some [1].
Proof.
  cbv zeta.
  exact (push_then_pop (frozen 100) decimal (query ep_push "7" "value" "5")
           (query_id ep_pop "7") (single 7 [1] 3700) 7
           {| array := [1]; expiry := 3700 |} 5
           eq_refl eq_refl eq_refl eq_refl eq_refl).
Defined.

(** A sweep over two stacks while the clock moves from 100 to 101. *)
Lemma sweep_with_moving_clock_witness :
  let gone := {| array := [1]; expiry := 50 |} in
  let kept := {| array := [2]; expiry := 5000 |} in
  let w := {| stacks := [(1, gone); (2, kept)]; ticks := 0; draws := 0 |} in
  exists w',
    remove_expired_stacks (counter 100) w = (Val tt, w')
    /\ ticks w' = 2%nat
    /\ Dict.get 1 (stacks w') = None
    /\ Dict.get 2 (stacks w') = Some kept.
Proof.
  cbv zeta.
  destruct (sweep_with_moving_clock (counter 100)
              {| stacks := [(1, {| array := [1]; expiry := 50 |});
                            (2, {| array := [2]; expiry := 5000 |})];
                 ticks := 0; draws := 0 |} 100 101 eq_refl)
    as (w' & Hrun & Hticks & Hgone & Hkept & _).
  - intros i Hi. unfold counter. cbn [ticks stacks List.length] in Hi. lia.
  - exists w'. split; [exact Hrun|]. split; [exact Hticks|]. split.
    + apply (Hgone 1 {| array := [1]; expiry := 50 |} eq_refl eq_refl).
    + apply (Hkept 2 {| array := [2]; expiry := 5000 |} eq_refl).
      discriminate.
Defined.


(** The top of a stack of two popped and pushed back. *)
Lemma pop_then_push_witness :
  let w := single 7 [1; 2] 3700 in
  let q := query_id ep_pop "7" in
  exists body,
    fst (pop (frozen 100) decimal q w) = Val (Response body 200)
    /\ forall req,
         int_arg decimal "id" req = Some 7 ->
         args_get "value" req = Some body ->
         fst (push (frozen 100) decimal req
                (snd (pop (frozen 100) decimal q w))) = Val Ok
         /\ array_of 7 (snd (push (frozen 100) decimal req
                               (snd (pop (frozen 100) decimal q w))))
            = Some [1; 2].
Proof.
  cbv zeta.
  refine (pop_then_push (frozen 100) decimal (query_id ep_pop "7")
            (single 7 [1; 2] 3700) 7 {| array := [1; 2]; expiry := 3700 |}
            decimal_str eq_refl eq_refl _ _).
  - split; [discriminate|repeat constructor].
  - discriminate.
Defined.
